(** * A Morton-order square matrix: [morton::matrix] and [morton::matrix_iterator]

    Shallow embedding of [03-Morton/step3/matrix.hpp].  Fixed-width integers
    are [Z] with the wrap-around written out, the free store is a finite map
    from block names to arrays, a [T*] is a block name with an element
    offset, and member functions that touch the free store live in a small
    state-and-failure monad. *)

From stdpp Require Import base numbers option list gmap.

Local Open Scope Z_scope.

(** ** Fixed-width arithmetic *)

Definition wrap32 (n : Z) : Z := n mod 2 ^ 32.
Definition wrap64 (n : Z) : Z := n mod 2 ^ 64.

(** ** The coordinate codec of [bits.hpp] *)

Module Bits.

(** The bit [b] placed at position [k]. *)
Definition place (b : bool) (k : Z) : Z := Z.shiftl (Z.b2z b) k.

(** Interleaving of the [n] low bits of [x] and [y]: bit [k] of [x] goes to
    position [2k], bit [k] of [y] to position [2k+1]. *)
Fixpoint interleave (n : nat) (x y : Z) : Z :=
  match n with
  | O => 0
  | S n' =>
      let k := Z.of_nat n' in
      Z.lor (interleave n' x y)
            (Z.lor (place (Z.testbit x k) (2 * k))
                   (place (Z.testbit y k) (2 * k + 1)))
  end.

(** Modelled from the spec: [encode] of [bits.hpp], which [matrix.hpp]
    includes and which is not among the sources.  "Interleaves the bits of
    [x] and [y] so that bit [2k] of the result is bit [k] of [x] and bit
    [2k+1] of the result is bit [k] of [y]"; the arguments are the two
    [uint32_t] indices of [operator()], so 32 bits of each are used and the
    result has 64. *)
Definition encode (x y : Z) : Z := interleave 32 x y.

(** The [n] low even bits of [z], made dense: bit [2k] of [z] goes to
    position [k]. *)
Fixpoint compact (n : nat) (z : Z) : Z :=
  match n with
  | O => 0
  | S n' =>
      let k := Z.of_nat n' in
      Z.lor (compact n' z) (place (Z.testbit z (2 * k)) k)
  end.

(** Modelled from the spec: [pack] of [bits.hpp], not among the sources.
    "Extracts every even bit, compacting them into a dense integer"; the
    iterator returns it as a [uint32_t], so it has 32 bits.  The odd bits
    are read by applying it to the index shifted right by one. *)
Definition pack (z : Z) : Z := compact 32 z.

End Bits.

(** Both coordinates of an offset: what [x()] and [y()] compute from it. *)
Definition decode (z : Z) : Z * Z := (Bits.pack z, Bits.pack (Z.shiftr z 1)).

(** ** Pointers and the free store *)

(** A [T*]: the array it points into ([None] for a null pointer) and an
    element offset.  Pointer arithmetic moves the offset only. *)
Inductive ptr : Type := Ptr (blk : option nat) (ofs : Z).

Definition blk_of (p : ptr) : option nat := let 'Ptr b _ := p in b.
Definition ofs_of (p : ptr) : Z := let 'Ptr _ o := p in o.

Global Instance ptr_eq_dec : EqDecision ptr.
Proof. solve_decision. Defined.

Definition nullptr : ptr := Ptr None 0.
Definition ptr_add (p : ptr) (n : Z) : ptr := Ptr (blk_of p) (ofs_of p + n).
Definition ptr_diff (p q : ptr) : Z := ofs_of p - ofs_of q.

(** The free store: the live arrays of [T], by block name. *)
Abbreviation heap T := (gmap nat (list T)).

Section Store.
Context {T : Type}.

Inductive result (A : Type) : Type :=
  | Ok (a : A) (h : heap T)
  | Abort
  | Undefined
  | OutOfFuel
  | IllFormed.
Global Arguments Ok {A} a h.
Global Arguments Abort {A}.
Global Arguments Undefined {A}.
Global Arguments OutOfFuel {A}.
Global Arguments IllFormed {A}.

(** Computations on the free store: [Abort] is a failed [assert],
    [Undefined] an access or a pointer computation outside a live array,
    [OutOfFuel] a loop of the model that was cut short, [IllFormed] code
    that the compiler rejects when it is instantiated, so that it has no
    behaviour at all. *)
Definition M (A : Type) : Type := heap T -> result A.

Global Instance M_ret : MRet M := fun A a h => Ok a h.
Global Instance M_bind : MBind M := fun A B f c h =>
  match c h with
  | Ok a h' => f a h'
  | Abort => Abort
  | Undefined => Undefined
  | OutOfFuel => OutOfFuel
  | IllFormed => IllFormed
  end.

(** What [new T[n]] leaves in element [i] of block [b]: for a scalar [T]
    the elements are not initialised, so any contents are possible. *)
Variable indeterminate : nat -> nat -> T.

(** [new T[n]] *)
Definition new_array (n : Z) : M nat := fun h =>
  let b := fresh (dom h) in
  Ok b (<[b := indeterminate b <$> seq 0 (Z.to_nat n)]> h).

(** [delete[] p] for a non-null [p] *)
Definition delete_array (b : nat) : M unit := fun h =>
  match h !! b with
  | Some _ => Ok tt (delete b h)
  | None => Undefined
  end.

(** [assert(c)] *)
Definition assert_ (c : bool) : M unit := fun h =>
  if c then Ok tt h else Abort.

(** The element a pointer designates, if it points into a live array. *)
Definition peek (h : heap T) (p : ptr) : option T :=
  match blk_of p with
  | Some b =>
      match h !! b with
      | Some buf =>
          if 0 <=? ofs_of p then buf !! Z.to_nat (ofs_of p) else None
      | None => None
      end
  | None => None
  end.

(** Reading through a pointer. *)
Definition load (p : ptr) : M T := fun h =>
  match peek h p with
  | Some v => Ok v h
  | None => Undefined
  end.

(** [p + n] on a [T*]: defined when the result stays within the array
    [p] points into, its one-past-the-end position included, and when
    [n] is 0. *)
Definition ptr_offset (p : ptr) (n : Z) : M ptr := fun h =>
  let within :=
    match blk_of p with
    | Some b =>
        match h !! b with
        | Some buf =>
            (0 <=? ofs_of p + n) && (ofs_of p + n <=? Z.of_nat (length buf))
        | None => false
        end
    | None => false
    end in
  if (n =? 0) || within then Ok (ptr_add p n) h else Undefined.

(** Writing through a pointer. *)
Definition store (p : ptr) (v : T) : M unit := fun h =>
  match blk_of p with
  | Some b =>
      match h !! b with
      | Some buf =>
          if (0 <=? ofs_of p) && (ofs_of p <? Z.of_nat (length buf)) then
            Ok tt (<[b := <[Z.to_nat (ofs_of p) := v]> buf]> h)
          else Undefined
      | None => Undefined
      end
  | None => Undefined
  end.
End Store.

(** ** [class matrix_iterator] *)

Record matrix_iterator : Type := { _ptr : ptr; _start : ptr }.

(** The element type an iterator or a matrix is instantiated with: the
    element type [T] of the matrix in hand, or [const T]. *)
Inductive element : Type := Plain | Const.

Global Instance element_eq_dec : EqDecision element.
Proof. solve_decision. Defined.

Global Instance matrix_iterator_eq_dec : EqDecision matrix_iterator.
Proof. solve_decision. Defined.

Module Iterator.

(** [matrix_iterator(T* start, T* pos)] *)
Definition make (start pos : ptr) : matrix_iterator :=
  {| _ptr := pos; _start := start |}.

(** [friend matrix<T>;] inside [matrix_iterator<T>]: the one class that
    may use the private constructor of the iterator over [e]. *)
Definition friend_matrix (e : element) : element := e.

(** The private constructor, called from a member of the matrix over
    [caller] for the iterator over [e]: ill-formed unless that matrix is the
    friend. *)
Definition construct {T : Type} (caller e : element) (start pos : ptr)
  : M (T := T) matrix_iterator := fun h =>
  if bool_decide (caller = friend_matrix e) then Ok (make start pos) h
  else IllFormed.

(** [uint32_t x() const] *)
Definition x (self : matrix_iterator) : Z :=
  let z := ptr_diff (_ptr self) (_start self) in
  Bits.pack z.

(** [uint32_t y() const] *)
Definition y (self : matrix_iterator) : Z :=
  let z := ptr_diff (_ptr self) (_start self) in
  Bits.pack (Z.shiftr z 1).

(** [operator==]: the positions are compared, the starts are not. *)
Definition operator_eq (a b : matrix_iterator) : bool :=
  bool_decide (_ptr a = _ptr b).

(** [operator!=] *)
Definition operator_ne (a b : matrix_iterator) : bool :=
  negb (operator_eq a b).

(** [T& operator*()]: the element designated, as a pointer to it. *)
Definition operator_deref (self : matrix_iterator) : ptr := _ptr self.

(** [matrix_iterator& operator++()]: the iterator after [++_ptr], and the
    object that the returned reference [*this] designates. *)
Definition operator_inc (self : matrix_iterator)
  : matrix_iterator * matrix_iterator :=
  let self' := {| _ptr := ptr_add (_ptr self) 1; _start := _start self |} in
  (self', self').

(** [matrix_iterator& operator--()] *)
Definition operator_dec (self : matrix_iterator)
  : matrix_iterator * matrix_iterator :=
  let self' := {| _ptr := ptr_add (_ptr self) (-1); _start := _start self |} in
  (self', self').

End Iterator.

(** ** [class matrix] *)

(** [_data] is a [std::unique_ptr<T[]>]: the block it owns, or null. *)
Record matrix : Type := { _rank : Z; _data : option nat }.

Global Instance matrix_eq_dec : EqDecision matrix.
Proof. solve_decision. Defined.

Module Matrix.
Section Members.
Context {T : Type}.
Variable indeterminate : nat -> nat -> T.

(** [matrix() : _rank(0)]; the [unique_ptr] starts null. *)
Definition default : matrix := {| _rank := 0; _data := None |}.

(** [matrix(uint32_t r) : _rank(r), _data(new T[r*r])], then the
    [assert] of the body.  [r*r] and [r-1] are [uint32_t] arithmetic. *)
Definition of_rank (r : Z) : M (T := T) matrix :=
  d ← new_array indeterminate (wrap32 (r * r));
  assert_ (Z.land r (wrap32 (r - 1)) =? 0);;
  mret {| _rank := r; _data := Some d |}.

(** [matrix(matrix&& other) = default]: member-wise move.  Moving the
    [uint32_t] copies it; moving the [unique_ptr] leaves [other] null.
    The result is the new object and [other] afterwards. *)
Definition move (other : matrix) : matrix * matrix :=
  ({| _rank := _rank other; _data := _data other |},
   {| _rank := _rank other; _data := None |}).

(** [matrix& operator=(matrix&& other) = default] between two distinct
    objects: [_rank] is assigned, then the [unique_ptr] takes the block of
    [other] and deletes the one it held.  The result is [*this] and
    [other] afterwards. *)
Definition operator_move_assign (self other : matrix)
  : M (T := T) (matrix * matrix) :=
  match _data self with
  | Some old => delete_array old
  | None => mret tt
  end;;
  mret ({| _rank := _rank other; _data := _data other |},
        {| _rank := _rank other; _data := None |}).

(** [uint32_t rank() const] *)
Definition rank (self : matrix) : Z := _rank self.

(** [uint64_t size() const] *)
Definition size (self : matrix) : Z :=
  wrap64 (wrap64 (_rank self) * wrap64 (_rank self)).

(** [T& operator()(uint32_t i, uint32_t j)] and its [const] twin: the
    element [_data[z]], as a pointer to it.  Whether [z] is within the
    array is decided where the element is used: [load] and [store] are
    undefined outside it. *)
Definition operator_call (self : matrix) (i j : Z) : ptr :=
  let z := Bits.encode i j in
  Ptr (_data self) z.

(** [T* data()] and its [const] twin *)
Definition data (self : matrix) : ptr := Ptr (_data self) 0.

(** [iterator begin()]: [iterator] is [matrix_iterator<T>], whose friend
    this class is. *)
Definition begin_ (self : matrix) : matrix_iterator :=
  Iterator.make (data self) (data self).

(** [iterator end()]: [iterator(data(), data() + size())] *)
Definition end_ (self : matrix) : M (T := T) matrix_iterator :=
  pos ← ptr_offset (data self) (size self);
  mret (Iterator.make (data self) pos).

(** [const_iterator begin() const]: [const_iterator] is
    [matrix_iterator<const T>], whose friend is [matrix<const T>], not
    this class. *)
Definition const_begin (self : matrix) : M (T := T) matrix_iterator :=
  Iterator.construct Plain Const (data self) (data self).

(** [const_iterator end() const] *)
Definition const_end (self : matrix) : M (T := T) matrix_iterator :=
  pos ← ptr_offset (data self) (size self);
  Iterator.construct Plain Const (data self) pos.

(** [std::copy(first, last, d_first)] on bidirectional iterators:
    [for (; first != last; ++first, ++d_first) *d_first = *first;] *)
Fixpoint copy (fuel : nat) (first last d_first : matrix_iterator)
  : M (T := T) matrix_iterator :=
  if Iterator.operator_ne first last then
    match fuel with
    | O => fun _ => OutOfFuel
    | S fuel' =>
        v ← load (Iterator.operator_deref first);
        store (Iterator.operator_deref d_first) v;;
        copy fuel' (Iterator.operator_inc first).1 last
             (Iterator.operator_inc d_first).1
    end
  else mret d_first.

(** [matrix duplicate() const].  In a [const] member function [begin()]
    and [end()] are the [const] ones.  The loop of [std::copy] runs
    [size()] times, which is the fuel it is given. *)
Definition duplicate (self : matrix) : M (T := T) matrix :=
  ans ← of_rank (_rank self);
  first ← const_begin self;
  last ← const_end self;
  copy (Z.to_nat (size self)) first last (begin_ ans);;
  mret ans.

(** [a(i, j)] read *)
Definition get (self : matrix) (i j : Z) : M (T := T) T :=
  load (operator_call self i j).

(** [a(i, j) = v] *)
Definition put (self : matrix) (i j : Z) (v : T) : M (T := T) unit :=
  store (operator_call self i j) v.

End Members.
End Matrix.

(** ** Client code *)

Module Client.
Section Programs.
Context {T : Type}.
Variable indeterminate : nat -> nat -> T.

(** [for (it = first; it != last; ++it)] recording [(it.x(), it.y())] *)
Fixpoint coordinates (fuel : nat) (it last : matrix_iterator)
  : option (list (Z * Z)) :=
  if Iterator.operator_ne it last then
    match fuel with
    | O => None
    | S fuel' =>
        cons (Iterator.x it, Iterator.y it)
          <$> coordinates fuel' (Iterator.operator_inc it).1 last
    end
  else Some [].

(** [for (it = first; it != last; ++it)] recording
    [(it.x(), it.y(), *it)] *)
Fixpoint visit (fuel : nat) (it last : matrix_iterator)
  : M (T := T) (list (Z * Z * T)) :=
  if Iterator.operator_ne it last then
    match fuel with
    | O => fun _ => OutOfFuel
    | S fuel' =>
        v ← load (Iterator.operator_deref it);
        rest ← visit fuel' (Iterator.operator_inc it).1 last;
        mret ((Iterator.x it, Iterator.y it, v) :: rest)
    end
  else mret [].

(** [for (auto it = a.begin(); it != a.end(); ++it) ...] *)
Definition traverse (fuel : nat) (a : matrix)
  : M (T := T) (list (Z * Z * T)) :=
  last ← Matrix.end_ a;
  visit fuel (Matrix.begin_ a) last.

(** [n] times [++it] *)
Fixpoint advance (n : nat) (it : matrix_iterator) : matrix_iterator :=
  match n with
  | O => it
  | S n' => advance n' (Iterator.operator_inc it).1
  end.

(** A use of the element accessor of one matrix: [a(i,j)] read, or
    [a(i,j) = v]. *)
Inductive access : Type :=
  | Get (i j : Z)
  | Put (i j : Z) (v : T).

(** A sequence of accesses; the values read, in order. *)
Fixpoint run (a : matrix) (acc : list access) : M (T := T) (list T) :=
  match acc with
  | [] => mret []
  | Get i j :: rest =>
      v ← Matrix.get a i j; vs ← run a rest; mret (v :: vs)
  | Put i j v :: rest =>
      Matrix.put a i j v;; run a rest
  end.

(** Statements over matrix variables, which are numbered in the order of
    their declaration. *)
Inductive statement : Type :=
  | DefaultConstruct                       (* matrix<T> m;                *)
  | Construct (r : Z)                      (* matrix<T> m(r);             *)
  | Assign (a : nat) (i j : Z) (v : T)     (* a(i,j) = v;                 *)
  | Duplicate (a : nat)                    (* auto m = a.duplicate();     *)
  | MoveConstruct (a : nat)                (* matrix<T> m(std::move(a));  *)
  | MoveAssign (b a : nat).                (* b = std::move(a);           *)

(** A statement that names a variable not declared does not compile. *)
Definition lookup_var (vars : list matrix) (a : nat) : M (T := T) matrix :=
  fun h => match vars !! a with Some m => Ok m h | None => IllFormed end.

Definition step (s : statement) (vars : list matrix)
  : M (T := T) (list matrix) :=
  match s with
  | DefaultConstruct => mret (vars ++ [Matrix.default])
  | Construct r =>
      m ← Matrix.of_rank indeterminate r; mret (vars ++ [m])
  | Assign a i j v =>
      m ← lookup_var vars a; Matrix.put m i j v;; mret vars
  | Duplicate a =>
      m ← lookup_var vars a;
      b ← Matrix.duplicate indeterminate m;
      mret (vars ++ [b])
  | MoveConstruct a =>
      m ← lookup_var vars a;
      mret (<[a := (Matrix.move m).2]> vars ++ [(Matrix.move m).1])
  | MoveAssign b a =>
      mb ← lookup_var vars b;
      ma ← lookup_var vars a;
      if decide (a = b) then
        (* [unique_ptr] self-move is [reset(release())]: no change *)
        mret vars
      else
        r ← Matrix.operator_move_assign mb ma;
        mret (<[b := r.1]> (<[a := r.2]> vars))
  end.

Fixpoint exec (prog : list statement) (vars : list matrix)
  : M (T := T) (list matrix) :=
  match prog with
  | [] => mret vars
  | s :: rest => vars' ← step s vars; exec rest vars'
  end.

End Programs.
End Client.

(** ** What the accessor is specified to do *)

Section Reference.
Context {T : Type}.

(** A square array seen through its coordinates. *)
Definition grid : Type := Z -> Z -> T.

Definition grid_set (g : grid) (i j : Z) (v : T) : grid :=
  fun i' j' => if bool_decide (i' = i /\ j' = j) then v else g i' j'.

(** The values a sequence of accesses reads when every read at [(i,j)]
    returns the value most recently written at [(i,j)]. *)
Fixpoint expected_reads (g : grid) (acc : list (Client.access (T := T)))
  : list T :=
  match acc with
  | [] => []
  | Client.Get i j :: rest => g i j :: expected_reads g rest
  | Client.Put i j v :: rest => expected_reads (grid_set g i j v) rest
  end.

(** The array after a sequence of accesses. *)
Fixpoint after_accesses (g : grid) (acc : list (Client.access (T := T)))
  : grid :=
  match acc with
  | [] => g
  | Client.Get _ _ :: rest => after_accesses g rest
  | Client.Put i j v :: rest => after_accesses (grid_set g i j v) rest
  end.
End Reference.

(** ** Predicates of the statements *)

(** Fresh arrays of integers that hold zeros, for the examples. *)
Definition zeros : nat -> nat -> Z := fun _ _ => 0.

Definition power_of_2 (r : Z) : Prop := exists k, 0 <= k /\ r = 2 ^ k.

Section Predicates.
Context {T : Type}.

(** [a] holds, in [h], an array of exactly [size()] elements. *)
Definition owns (h : heap T) (a : matrix) : Prop :=
  exists b buf, _data a = Some b /\ h !! b = Some buf /\
                Z.of_nat (length buf) = Matrix.size a.

(** The array of [a], seen through the accessor, is [g]. *)
Definition represents (h : heap T) (a : matrix) (g : grid) : Prop :=
  forall i j, 0 <= i < Matrix.rank a -> 0 <= j < Matrix.rank a ->
              Matrix.get a i j h = Ok (g i j) h.

Definition in_range (a : matrix) (c : Client.access (T := T)) : Prop :=
  match c with
  | Client.Get i j | Client.Put i j _ =>
      0 <= i < Matrix.rank a /\ 0 <= j < Matrix.rank a
  end.


(** What holds of every matrix: the array, when there is one, is live and
    has [size()] elements. *)
Definition holds_array (h : heap T) (a : matrix) : Prop :=
  forall b, _data a = Some b ->
            exists buf, h !! b = Some buf /\
                        Z.of_nat (length buf) = Matrix.size a.

Definition sound (h : heap T) (a : matrix) : Prop :=
  (0 <= Matrix.rank a < 2 ^ 16 /\
   (Matrix.rank a = 0 \/ power_of_2 (Matrix.rank a))) /\
  holds_array h a.

(** No two variables hold the same array. *)
Definition exclusive (vars : list matrix) : Prop :=
  forall i j a a' b,
    vars !! i = Some a -> vars !! j = Some a' ->
    _data a = Some b -> _data a' = Some b -> i = j.

Definition invariant (vars : list matrix) (h : heap T) : Prop :=
  (forall i a, vars !! i = Some a -> sound h a) /\ exclusive vars.

(** Ranks whose square fits 32 bits. *)
Definition small_rank (s : Client.statement (T := T)) : Prop :=
  match s with
  | Client.Construct r => 0 <= r < 2 ^ 16
  | _ => True
  end.
End Predicates.

(** ** More client code *)

Section Uses.
Context {T : Type}.

(** [for (it = last; it != first; ) { --it; ... }] recording
    [(it.x(), it.y())]: the traversal from [end()] down to [begin()]. *)
Fixpoint coordinates_backward (fuel : nat) (it first : matrix_iterator)
  : option (list (Z * Z)) :=
  if Iterator.operator_ne it first then
    match fuel with
    | O => None
    | S fuel' =>
        let it' := (Iterator.operator_dec it).1 in
        cons (Iterator.x it', Iterator.y it')
          <$> coordinates_backward fuel' it' first
    end
  else Some [].

(** The exchange of two distinct matrices by three moves, as [std::swap]
    does it: [matrix tmp(std::move(a)); a = std::move(b);
    b = std::move(tmp);].  The result is [a] and [b] afterwards. *)
Definition swap (a b : matrix) : M (T := T) (matrix * matrix) :=
  let tmp := (Matrix.move a).1 in
  let a1 := (Matrix.move a).2 in
  r1 ← Matrix.operator_move_assign a1 b;
  r2 ← Matrix.operator_move_assign r1.2 tmp;
  mret (r1.1, r2.1).

(** Every live array is held by some variable. *)
Definition no_garbage (vars : list matrix) (h : heap T) : Prop :=
  forall b, is_Some (h !! b) ->
            exists i a, vars !! i = Some a /\ _data a = Some b.






(** What a statement needs to run to completion: the variables it names are
    declared; a rank is 0 or a power of 2; a matrix written to holds an
    array and the coordinates are below its rank.  [duplicate()] cannot be
    instantiated. *)
Definition well_defined (vars : list matrix) (s : Client.statement (T := T))
  : Prop :=
  match s with
  | Client.DefaultConstruct => True
  | Client.Construct r => r = 0 \/ power_of_2 r
  | Client.Assign a i j _ =>
      exists m, vars !! a = Some m /\ _data m <> None /\
                0 <= i < Matrix.rank m /\ 0 <= j < Matrix.rank m
  | Client.Duplicate a => False
  | Client.MoveConstruct a => is_Some (vars !! a)
  | Client.MoveAssign b a => is_Some (vars !! a) /\ is_Some (vars !! b)
  end.
End Uses.

(** *** Bits of the codec *)

Lemma testbit_place b k i :
  0 <= k -> Z.testbit (Bits.place b k) i = b && (i =? k).
Proof.
  intros Hk. unfold Bits.place.
  destruct (Z.ltb_spec i 0) as [Hneg|Hi].
  { rewrite Z.testbit_neg_r by lia.
    destruct (Z.eqb_spec i k); [lia|]. by rewrite andb_false_r. }
  rewrite Z.shiftl_spec by lia.
  destruct (Z.eqb_spec i k) as [->|Hne].
  - rewrite Z.sub_diag, Z.b2z_bit0. by rewrite andb_true_r.
  - rewrite andb_false_r.
    destruct (Z.ltb_spec i k).
    + apply Z.testbit_neg_r. lia.
    + destruct b; simpl.
      * apply Z.bits_above_log2; simpl; lia.
      * apply Z.bits_0.
Qed.

Lemma testbit_interleave n x y i :
  0 <= i ->
  Z.testbit (Bits.interleave n x y) i =
    (i / 2 <? Z.of_nat n) &&
    (if Z.even i then Z.testbit x (i / 2) else Z.testbit y (i / 2)).
Proof.
  intros Hi.
  assert (Hdm : i = 2 * (i / 2) + i mod 2) by (apply Z.div_mod; lia).
  assert (Hq : 0 <= i / 2) by (apply Z.div_pos; lia).
  pose proof (Zmod_even i) as Hm.
  induction n as [|n IH].
  - simpl. rewrite Z.bits_0.
    destruct (Z.ltb_spec (i / 2) (Z.of_nat 0)); [lia|done].
  - cbn [Bits.interleave]. cbv zeta.
    rewrite !Z.lor_spec, IH, !testbit_place by lia.
    destruct (Z.even i);
      destruct (Z.ltb_spec (i / 2) (Z.of_nat n)),
               (Z.ltb_spec (i / 2) (Z.of_nat (S n))),
               (Z.eqb_spec i (2 * Z.of_nat n)),
               (Z.eqb_spec i (2 * Z.of_nat n + 1));
      try lia; simpl; rewrite ?andb_true_r, ?andb_false_r, ?orb_false_r;
      try done; replace (Z.of_nat n) with (i / 2) by lia; done.
Qed.

Lemma testbit_compact n z k :
  0 <= k ->
  Z.testbit (Bits.compact n z) k = (k <? Z.of_nat n) && Z.testbit z (2 * k).
Proof.
  intros Hk. induction n as [|n IH].
  - simpl. rewrite Z.bits_0.
    destruct (Z.ltb_spec k (Z.of_nat 0)); [lia|done].
  - cbn [Bits.compact]. cbv zeta.
    rewrite Z.lor_spec, IH, testbit_place by lia.
    destruct (Z.ltb_spec k (Z.of_nat n)),
             (Z.ltb_spec k (Z.of_nat (S n))),
             (Z.eqb_spec k (Z.of_nat n));
      try lia; simpl; rewrite ?andb_true_r, ?andb_false_r, ?orb_false_r;
      try done; subst k; done.
Qed.

Lemma bits_above x k i :
  0 <= x < 2 ^ k -> k <= i -> Z.testbit x i = false.
Proof.
  intros [Hx0 Hxk] Hki.
  destruct (decide (x = 0)) as [->|Hne]; [apply Z.bits_0|].
  apply Z.bits_above_log2; [done|].
  destruct (Z.lt_ge_cases k 0) as [Hneg|Hk].
  { rewrite Z.pow_neg_r in Hxk by done. lia. }
  enough (Z.log2 x < k) by lia.
  apply Z.log2_lt_pow2; lia.
Qed.

Lemma below_pow2 x k :
  0 <= k -> 0 <= x -> (forall i, k <= i -> Z.testbit x i = false) -> x < 2 ^ k.
Proof.
  intros Hk Hx Hbits.
  destruct (decide (x = 0)) as [->|Hne].
  { apply Z.pow_pos_nonneg; lia. }
  apply Z.log2_lt_pow2; [lia|].
  destruct (Z.lt_ge_cases (Z.log2 x) k) as [|Hge]; [done|].
  specialize (Hbits _ Hge). rewrite Z.bit_log2 in Hbits by lia. done.
Qed.

Lemma place_nonneg b k : 0 <= Bits.place b k.
Proof. unfold Bits.place. apply Z.shiftl_nonneg. by destruct b. Qed.

Lemma interleave_nonneg n x y : 0 <= Bits.interleave n x y.
Proof.
  induction n as [|n IH]; [done|].
  cbn [Bits.interleave]. cbv zeta.
  rewrite !Z.lor_nonneg. auto using place_nonneg.
Qed.

Lemma encode_nonneg x y : 0 <= Bits.encode x y.
Proof. apply interleave_nonneg. Qed.

Lemma compact_nonneg n z : 0 <= Bits.compact n z.
Proof.
  induction n as [|n IH]; [done|].
  cbn [Bits.compact]. cbv zeta.
  rewrite Z.lor_nonneg. auto using place_nonneg.
Qed.

Lemma testbit_encode x y i :
  0 <= i ->
  Z.testbit (Bits.encode x y) i =
    (i / 2 <? 32) &&
    (if Z.even i then Z.testbit x (i / 2) else Z.testbit y (i / 2)).
Proof. intros. unfold Bits.encode. by rewrite testbit_interleave. Qed.

Lemma testbit_pack z k :
  0 <= k -> Z.testbit (Bits.pack z) k = (k <? 32) && Z.testbit z (2 * k).
Proof. intros. unfold Bits.pack. by rewrite testbit_compact. Qed.

(** The three sentences of the codec's description, bit by bit. *)
Lemma encode_even_bit x y k :
  0 <= k < 32 -> Z.testbit (Bits.encode x y) (2 * k) = Z.testbit x k.
Proof.
  intros Hk. rewrite testbit_encode by lia.
  replace (2 * k / 2) with k by (apply Z.div_unique_exact; lia).
  replace (Z.even (2 * k)) with true by (symmetry; apply Z.even_spec; by exists k).
  destruct (Z.ltb_spec k 32); [done|lia].
Qed.

Lemma encode_odd_bit x y k :
  0 <= k < 32 -> Z.testbit (Bits.encode x y) (2 * k + 1) = Z.testbit y k.
Proof.
  intros Hk. rewrite testbit_encode by lia.
  replace ((2 * k + 1) / 2) with k
    by (apply (Z.div_unique _ _ _ 1); lia).
  rewrite Z.add_comm, Z.even_add_mul_2. simpl.
  destruct (Z.ltb_spec k 32); [done|lia].
Qed.

Lemma pack_bit z k :
  0 <= k < 32 -> Z.testbit (Bits.pack z) k = Z.testbit z (2 * k).
Proof.
  intros Hk. rewrite testbit_pack by lia.
  destruct (Z.ltb_spec k 32); [done|lia].
Qed.

Lemma pack_encode_x x y : 0 <= x < 2 ^ 32 -> Bits.pack (Bits.encode x y) = x.
Proof.
  intros Hx. apply Z.bits_inj'. intros k Hk.
  rewrite testbit_pack by done.
  destruct (Z.ltb_spec k 32) as [Hlt|Hge]; simpl.
  - by apply encode_even_bit.
  - symmetry. by apply (bits_above x 32).
Qed.

Lemma pack_encode_y x y :
  0 <= y < 2 ^ 32 -> Bits.pack (Z.shiftr (Bits.encode x y) 1) = y.
Proof.
  intros Hy. apply Z.bits_inj'. intros k Hk.
  rewrite testbit_pack by done.
  destruct (Z.ltb_spec k 32) as [Hlt|Hge]; simpl.
  - rewrite Z.shiftr_spec by lia. by apply encode_odd_bit.
  - symmetry. by apply (bits_above y 32).
Qed.

Lemma encode_pack z :
  0 <= z < 2 ^ 64 -> Bits.encode (Bits.pack z) (Bits.pack (Z.shiftr z 1)) = z.
Proof.
  intros Hz. apply Z.bits_inj'. intros i Hi.
  assert (Hdm : i = 2 * (i / 2) + i mod 2) by (apply Z.div_mod; lia).
  assert (Hq : 0 <= i / 2) by (apply Z.div_pos; lia).
  pose proof (Zmod_even i) as Hm.
  rewrite testbit_encode by done.
  destruct (Z.ltb_spec (i / 2) 32) as [Hlt|Hge]; simpl.
  - rewrite !pack_bit by lia. rewrite Z.shiftr_spec by lia.
    destruct (Z.even i); f_equal; lia.
  - symmetry. assert (0 <= i mod 2 < 2) by (apply Z.mod_pos_bound; lia).
    apply (bits_above z 64); lia.
Qed.

Lemma encode_bound k x y :
  0 <= k -> 0 <= x < 2 ^ k -> 0 <= y < 2 ^ k ->
  0 <= Bits.encode x y < 2 ^ (2 * k).
Proof.
  intros Hk Hx Hy. split; [apply interleave_nonneg|].
  apply below_pow2; [lia|apply interleave_nonneg|].
  intros i Hi. rewrite testbit_encode by lia.
  assert (k <= i / 2) by (apply Z.div_le_lower_bound; lia).
  rewrite (bits_above x k), (bits_above y k) by done.
  destruct (Z.even i); apply andb_false_r.
Qed.

Lemma pack_bound k z :
  0 <= k -> 0 <= z < 2 ^ (2 * k) -> 0 <= Bits.pack z < 2 ^ k.
Proof.
  intros Hk Hz. split; [apply compact_nonneg|].
  apply below_pow2; [done|apply compact_nonneg|].
  intros i Hi. rewrite testbit_pack by lia.
  rewrite (bits_above z (2 * k)) by (done || lia). apply andb_false_r.
Qed.

Lemma shiftr1_bound k z :
  0 <= k -> 0 <= z < 2 ^ (2 * k) -> 0 <= Z.shiftr z 1 < 2 ^ (2 * k).
Proof.
  intros Hk Hz. rewrite Z.shiftr_div_pow2 by lia.
  change (2 ^ 1) with 2. split.
  - apply Z.div_pos; lia.
  - apply Z.div_lt_upper_bound; lia.
Qed.

Lemma pow2_le_32 k : 0 <= k <= 32 -> 0 < 2 ^ k <= 2 ^ 32.
Proof.
  intros Hk. split; [apply Z.pow_pos_nonneg; lia|].
  apply Z.pow_le_mono_r; lia.
Qed.

(** *** The codec on the coordinates of a matrix of rank [2^k] *)

Lemma pow2_square k : 0 <= k -> 2 ^ k * 2 ^ k = 2 ^ (2 * k).
Proof. intros. rewrite <- Z.pow_add_r by lia. f_equal. lia. Qed.

Lemma pow2_rank_range k : 0 <= k <= 31 -> 0 < 2 ^ k < 2 ^ 32.
Proof.
  intros Hk. split; [apply Z.pow_pos_nonneg; lia|].
  apply Z.pow_lt_mono_r; lia.
Qed.

Lemma pow2_size_range k : 0 <= k <= 31 -> 2 ^ (2 * k) < 2 ^ 64.
Proof. intros Hk. apply Z.pow_lt_mono_r; lia. Qed.

Lemma decode_encode k x y :
  0 <= k <= 31 -> 0 <= x < 2 ^ k -> 0 <= y < 2 ^ k ->
  decode (Bits.encode x y) = (x, y).
Proof.
  intros Hk Hx Hy. pose proof (pow2_rank_range k Hk).
  unfold decode. rewrite pack_encode_x, pack_encode_y by lia. done.
Qed.

Lemma encode_decode k z :
  0 <= k <= 31 -> 0 <= z < 2 ^ (2 * k) ->
  Bits.encode (decode z).1 (decode z).2 = z.
Proof.
  intros Hk Hz. pose proof (pow2_size_range k Hk).
  apply encode_pack. lia.
Qed.

Lemma decode_bound k z :
  0 <= k <= 31 -> 0 <= z < 2 ^ (2 * k) ->
  0 <= (decode z).1 < 2 ^ k /\ 0 <= (decode z).2 < 2 ^ k.
Proof.
  intros Hk Hz. split; simpl.
  - apply pack_bound; lia.
  - apply pack_bound; [lia|]. apply shiftr1_bound; lia.
Qed.

Lemma encode_inj k x y x' y' :
  0 <= k <= 31 ->
  0 <= x < 2 ^ k -> 0 <= y < 2 ^ k -> 0 <= x' < 2 ^ k -> 0 <= y' < 2 ^ k ->
  Bits.encode x y = Bits.encode x' y' -> x = x' /\ y = y'.
Proof.
  intros Hk Hx Hy Hx' Hy' Heq.
  assert (Hd : decode (Bits.encode x y) = decode (Bits.encode x' y'))
    by (by rewrite Heq).
  rewrite !(decode_encode k) in Hd by done. by simplify_eq.
Qed.

Lemma decode_inj k z z' :
  0 <= k <= 31 -> 0 <= z < 2 ^ (2 * k) -> 0 <= z' < 2 ^ (2 * k) ->
  decode z = decode z' -> z = z'.
Proof.
  intros Hk Hz Hz' Heq.
  rewrite <- (encode_decode k z), <- (encode_decode k z') by done.
  by rewrite Heq.
Qed.

(** *** Iterators *)

Lemma iterator_coordinates it :
  (Iterator.x it, Iterator.y it) = decode (ptr_diff (_ptr it) (_start it)).
Proof. done. Qed.

Lemma operator_ne_offsets b s s' o n :
  Iterator.operator_ne (Iterator.make (Ptr b s) (Ptr b o))
                       (Iterator.make (Ptr b s') (Ptr b (o + n)))
  = negb (n =? 0).
Proof.
  unfold Iterator.operator_ne, Iterator.operator_eq. simpl. f_equal.
  destruct (Z.eqb_spec n 0) as [->|Hn].
  - rewrite Z.add_0_r. by apply bool_decide_eq_true.
  - apply bool_decide_eq_false. intros [=]. lia.
Qed.

Lemma coordinates_spec b s s' (n : nat) : forall fuel o,
  (n <= fuel)%nat ->
  Client.coordinates fuel (Iterator.make (Ptr b s) (Ptr b o))
                     (Iterator.make (Ptr b s') (Ptr b (o + Z.of_nat n)))
  = Some ((fun z => decode (z - s)) <$> seqZ o (Z.of_nat n)).
Proof.
  induction n as [|n IH]; intros fuel o Hfuel.
  - destruct fuel; simpl; by rewrite operator_ne_offsets.
  - destruct fuel as [|fuel]; [lia|].
    cbn [Client.coordinates]. rewrite operator_ne_offsets.
    destruct (Z.eqb_spec (Z.of_nat (S n)) 0); [lia|].
    change (negb false) with true. cbv iota.
    rewrite seqZ_cons by lia. rewrite fmap_cons.
    replace (Z.pred (Z.of_nat (S n))) with (Z.of_nat n) by lia.
    replace (o + Z.of_nat (S n)) with (Z.succ o + Z.of_nat n) by lia.
    specialize (IH fuel (Z.succ o) ltac:(lia)).
    unfold Iterator.operator_inc, Iterator.make, ptr_add in *. simpl in *.
    replace (o + 1) with (Z.succ o) by lia.
    rewrite IH. done.
Qed.

Lemma size_eq (a : matrix) :
  0 <= _rank a < 2 ^ 32 -> Matrix.size a = _rank a * _rank a.
Proof.
  intros Hr. unfold Matrix.size, wrap64.
  assert (2 ^ 64 = 2 ^ 32 * 2 ^ 32) as Hp by done.
  rewrite (Z.mod_small (_rank a)) by lia.
  apply Z.mod_small. nia.
Qed.

Lemma size_pow2 (a : matrix) k :
  0 <= k <= 31 -> Matrix.rank a = 2 ^ k -> Matrix.size a = 2 ^ (2 * k).
Proof.
  intros Hk Hr. unfold Matrix.rank in Hr.
  pose proof (pow2_rank_range k Hk).
  rewrite size_eq by lia. rewrite Hr. apply pow2_square. lia.
Qed.

Lemma decoded_offsets_NoDup k :
  0 <= k <= 31 -> NoDup (decode <$> seqZ 0 (2 ^ (2 * k))).
Proof.
  intros Hk. apply NoDup_fmap_2_strong; [|apply NoDup_seqZ].
  intros z z' Hz Hz'. rewrite !elem_of_seqZ in Hz, Hz'.
  apply (decode_inj k); lia.
Qed.

Lemma decoded_offsets_product k :
  0 <= k <= 31 ->
  decode <$> seqZ 0 (2 ^ (2 * k)) ≡ₚ list_prod (seqZ 0 (2 ^ k)) (seqZ 0 (2 ^ k)).
Proof.
  intros Hk. pose proof (pow2_rank_range k Hk) as Hr.
  apply submseteq_length_Permutation.
  - apply NoDup_submseteq; [by apply decoded_offsets_NoDup|].
    intros [x y] (z & Hxy & Hz)%list_elem_of_fmap.
    rewrite elem_of_seqZ in Hz.
    destruct (decode_bound k z) as [Hx Hy]; [lia..|].
    rewrite <- Hxy in Hx, Hy. simpl in Hx, Hy.
    apply list_elem_of_In, in_prod_iff.
    rewrite <- !list_elem_of_In, !elem_of_seqZ. lia.
  - rewrite length_fmap, length_prod, !length_seqZ.
    rewrite <- pow2_square by lia. rewrite Z2Nat.inj_mul by lia. done.
Qed.

(** C1 (codec round trip).  For a rank [r = 2^k] and coordinates [x], [y]
    in [[0, r)], packing the even bits of [encode x y] gives [x] and packing
    the odd bits gives [y]; an iterator whose position is [encode x y]
    elements past its start reports [x() = x] and [y() = y]. *)
Theorem codec_round_trip (k x y : Z) :
  0 <= k <= 31 -> 0 <= x < 2 ^ k -> 0 <= y < 2 ^ k ->
  Bits.pack (Bits.encode x y) = x /\
  Bits.pack (Z.shiftr (Bits.encode x y) 1) = y /\
  forall it : matrix_iterator,
    ptr_diff (_ptr it) (_start it) = Bits.encode x y ->
    Iterator.x it = x /\ Iterator.y it = y.
Proof.
  intros Hk Hx Hy. pose proof (pow2_rank_range k Hk).
  assert (Bits.pack (Bits.encode x y) = x) by (apply pack_encode_x; lia).
  assert (Bits.pack (Z.shiftr (Bits.encode x y) 1) = y)
    by (apply pack_encode_y; lia).
  repeat split; try done; unfold Iterator.x, Iterator.y; cbv zeta;
    by match goal with Hit : ptr_diff _ _ = _ |- _ => rewrite Hit end.
Qed.

Lemma codec_round_trip_witness :
  (0 <= 2 <= 31 /\ 0 <= 1 < 2 ^ 2 /\ 0 <= 2 < 2 ^ 2) /\
  Bits.pack (Bits.encode 1 2) = 1 /\
  Bits.pack (Z.shiftr (Bits.encode 1 2) 1) = 2 /\
  forall it : matrix_iterator,
    ptr_diff (_ptr it) (_start it) = Bits.encode 1 2 ->
    Iterator.x it = 1 /\ Iterator.y it = 2.
Proof.
  split; [lia|]. apply (codec_round_trip 2 1 2); lia.
Defined.


(** *** The constructor's assertion *)

Lemma land_pred_pow2 k : 0 <= k -> Z.land (2 ^ k) (2 ^ k - 1) = 0.
Proof.
  intros Hk. rewrite Z.sub_1_r, <- Z.ones_equiv.
  rewrite Z.land_ones by done. apply Z_mod_same_full.
Qed.

Lemma land_pred_zero r :
  0 < r -> Z.land r (r - 1) = 0 -> power_of_2 r.
Proof.
  intros Hr Hland. exists (Z.log2 r).
  pose proof (Z.log2_nonneg r) as Hk. split; [done|].
  destruct (Z.log2_spec r Hr) as [Hlo Hhi].
  destruct (decide (r = 2 ^ Z.log2 r)) as [|Hne]; [done|exfalso].
  assert (Hlog : Z.log2 (r - 1) = Z.log2 r).
  { apply Z.log2_unique; [done|]. rewrite <- Z.add_1_r in Hhi. lia. }
  assert (Hbit : Z.testbit (Z.land r (r - 1)) (Z.log2 r) = true).
  { rewrite Z.land_spec, Z.bit_log2 by done.
    rewrite <- Hlog. rewrite Z.bit_log2; [done|].
    assert (0 < 2 ^ Z.log2 r) by (apply Z.pow_pos_nonneg; lia). lia. }
  rewrite Hland, Z.bits_0 in Hbit. done.
Qed.

Lemma assertion_holds_iff r :
  0 <= r < 2 ^ 32 ->
  Z.land r (wrap32 (r - 1)) = 0 <-> r = 0 \/ power_of_2 r.
Proof.
  intros Hr. destruct (decide (r = 0)) as [->|Hne].
  { split; [by left|]. intros _. apply Z.land_0_l. }
  unfold wrap32. rewrite (Z.mod_small (r - 1)) by lia. split.
  - intros Hland. right. apply land_pred_zero; [lia|done].
  - intros [?|(k & Hk & ->)]; [done|]. by apply land_pred_pow2.
Qed.

Lemma power_of_2_pos r : power_of_2 r -> 0 < r.
Proof. intros (k & Hk & ->). apply Z.pow_pos_nonneg; lia. Qed.

Lemma power_of_2_below r n :
  0 <= n -> power_of_2 r -> r < 2 ^ n -> exists k, 0 <= k < n /\ r = 2 ^ k.
Proof.
  intros Hn (k & Hk & ->) Hlt. exists k. split; [|done].
  split; [done|]. by apply (Z.pow_lt_mono_r_iff 2).
Qed.

Section Construction.
Context {T : Type}.
Variable indeterminate : nat -> nat -> T.
Implicit Types (h : heap T) (a : matrix).

Lemma fresh_block h : h !! fresh (dom h) = None.
Proof. apply not_elem_of_dom, is_fresh. Qed.

Lemma of_rank_eq r h :
  Matrix.of_rank indeterminate r h =
    if Z.land r (wrap32 (r - 1)) =? 0 then
      Ok {| _rank := r; _data := Some (fresh (dom h)) |}
         (<[fresh (dom h) :=
              indeterminate (fresh (dom h))
                <$> seq 0 (Z.to_nat (wrap32 (r * r)))]> h)
    else Abort.
Proof.
  unfold Matrix.of_rank, mbind, M_bind, new_array, assert_, mret, M_ret.
  by destruct (Z.land r (wrap32 (r - 1)) =? 0).
Qed.

Lemma of_rank_aborts r h :
  0 <= r < 2 ^ 32 ->
  Matrix.of_rank indeterminate r h = Abort <-> ~ (r = 0 \/ power_of_2 r).
Proof.
  intros Hr. rewrite of_rank_eq, <- (assertion_holds_iff r Hr).
  destruct (Z.eqb_spec (Z.land r (wrap32 (r - 1))) 0) as [Heq|Hne].
  - split; [done|]. intros Hn. by destruct Hn.
  - done.
Qed.

Lemma of_rank_returns r h :
  0 <= r < 2 ^ 32 -> r = 0 \/ power_of_2 r ->
  Matrix.of_rank indeterminate r h =
    Ok {| _rank := r; _data := Some (fresh (dom h)) |}
       (<[fresh (dom h) :=
            indeterminate (fresh (dom h))
              <$> seq 0 (Z.to_nat (wrap32 (r * r)))]> h).
Proof.
  intros Hr Hpow. rewrite of_rank_eq.
  apply (assertion_holds_iff r Hr) in Hpow. by rewrite Hpow.
Qed.

Lemma of_rank_inv r h a h' :
  0 <= r < 2 ^ 32 ->
  Matrix.of_rank indeterminate r h = Ok a h' ->
  (r = 0 \/ power_of_2 r) /\
  a = {| _rank := r; _data := Some (fresh (dom h)) |} /\
  h' = <[fresh (dom h) :=
           indeterminate (fresh (dom h))
             <$> seq 0 (Z.to_nat (wrap32 (r * r)))]> h.
Proof.
  intros Hr. rewrite of_rank_eq.
  destruct (Z.eqb_spec (Z.land r (wrap32 (r - 1))) 0) as [Hz|]; [|done].
  intros [= <- <-]. split; [|done]. by apply assertion_holds_iff.
Qed.

(** Below [2^16] the product [r*r] does not wrap, and the array has
    [size()] elements. *)
Lemma of_rank_owns r h :
  0 <= r < 2 ^ 16 -> r = 0 \/ power_of_2 r ->
  exists a h',
    Matrix.of_rank indeterminate r h = Ok a h' /\
    Matrix.rank a = r /\ owns h' a /\
    _data a = Some (fresh (dom h)) /\
    forall b, b <> fresh (dom h) -> h' !! b = h !! b.
Proof.
  intros Hr Hpow. eexists _, _. split; [apply of_rank_returns; [lia|done]|].
  split; [done|]. split; [|split; [done|]].
  - eexists _, _. split; [done|]. split; [apply lookup_insert_eq|].
    rewrite length_fmap, length_seq, size_eq by (simpl; lia). simpl.
    unfold wrap32. rewrite Z.mod_small by nia. nia.
  - intros b Hb. by apply lookup_insert_ne.
Qed.
End Construction.

(** *** The free store *)

#[global] Opaque Bits.encode Bits.pack.

Section Memory.
Context {T : Type}.
Implicit Types (h : heap T) (a : matrix) (p : ptr) (v : T) (g : grid (T := T)).

Lemma load_ok p h v : peek h p = Some v -> load p h = Ok v h.
Proof. unfold load. by intros ->. Qed.

Lemma load_inv {p h v h'} : load p h = Ok v h' -> peek h p = Some v /\ h' = h.
Proof. unfold load. destruct (peek h p); naive_solver. Qed.

Lemma peek_block h b buf z :
  h !! b = Some buf -> 0 <= z ->
  peek h (Ptr (Some b) z) = buf !! Z.to_nat z.
Proof.
  intros Hb Hz. unfold peek. simpl. rewrite Hb.
  destruct (Z.leb_spec 0 z); [done|lia].
Qed.

Lemma peek_frame h h' b z :
  h' !! b = h !! b -> peek h' (Ptr (Some b) z) = peek h (Ptr (Some b) z).
Proof. intros Hb. unfold peek. simpl. by rewrite Hb. Qed.

Lemma store_ok h b buf z v :
  h !! b = Some buf -> 0 <= z < Z.of_nat (length buf) ->
  store (Ptr (Some b) z) v h = Ok tt (<[b := <[Z.to_nat z := v]> buf]> h).
Proof.
  intros Hb Hz. unfold store. simpl. rewrite Hb.
  destruct (Z.leb_spec 0 z); [|lia].
  destruct (Z.ltb_spec z (Z.of_nat (length buf))); [done|lia].
Qed.

Lemma store_inv {p v h u h'} :
  store p v h = Ok u h' ->
  exists b buf, blk_of p = Some b /\ h !! b = Some buf /\
                0 <= ofs_of p < Z.of_nat (length buf) /\
                h' = <[b := <[Z.to_nat (ofs_of p) := v]> buf]> h.
Proof.
  unfold store. destruct (blk_of p) as [b|]; [|done].
  destruct (h !! b) as [buf|] eqn:Hb; [|done].
  destruct (Z.leb_spec 0 (ofs_of p)); [|done].
  destruct (Z.ltb_spec (ofs_of p) (Z.of_nat (length buf))); [|done].
  simpl. intros [= <-]. exists b, buf. split_and!; done || lia.
Qed.

(** *** The element accessor *)

Lemma get_eq a i j h :
  Matrix.get a i j h =
    match peek h (Matrix.operator_call a i j) with
    | Some v => Ok v h
    | None => Undefined
    end.
Proof. done. Qed.

Lemma represents_peek h a g :
  represents h a g <->
  forall i j, 0 <= i < Matrix.rank a -> 0 <= j < Matrix.rank a ->
              peek h (Matrix.operator_call a i j) = Some (g i j).
Proof.
  unfold represents. setoid_rewrite get_eq.
  split; intros H i j Hi Hj; specialize (H i j Hi Hj).
  - by destruct (peek h _); simplify_eq.
  - by rewrite H.
Qed.

Lemma represents_frame h h' a g b :
  _data a = Some b -> h' !! b = h !! b ->
  represents h a g -> represents h' a g.
Proof.
  rewrite !represents_peek. intros Ha Hb H i j Hi Hj.
  specialize (H i j Hi Hj). unfold Matrix.operator_call in *.
  cbv zeta in *. rewrite Ha in *. by rewrite (peek_frame h h').
Qed.

Lemma grid_set_same g i j v : grid_set g i j v i j = v.
Proof. unfold grid_set. by rewrite bool_decide_eq_true_2. Qed.

Lemma grid_set_other g i j v i' j' :
  (i', j') <> (i, j) -> grid_set g i j v i' j' = g i' j'.
Proof.
  intros Hne. unfold grid_set. rewrite bool_decide_eq_false_2; [done|].
  intros [-> ->]. done.
Qed.

(** A write in range succeeds, keeps the array's length and changes the
    element at its coordinates only. *)
Lemma put_represents a k h g i j v :
  0 <= k <= 31 -> Matrix.rank a = 2 ^ k -> owns h a -> represents h a g ->
  0 <= i < Matrix.rank a -> 0 <= j < Matrix.rank a ->
  exists h',
    Matrix.put a i j v h = Ok tt h' /\ owns h' a /\
    represents h' a (grid_set g i j v) /\
    forall b, _data a <> Some b -> h' !! b = h !! b.
Proof.
  intros Hk Hr (b & buf & Hd & Hb & Hlen) Hg Hi Hj.
  pose proof (size_pow2 a k Hk Hr) as Hsz.
  assert (Hz : 0 <= Bits.encode i j < 2 ^ (2 * k))
    by (apply encode_bound; lia).
  exists (<[b := <[Z.to_nat (Bits.encode i j) := v]> buf]> h).
  split_and!.
  - unfold Matrix.put, Matrix.operator_call. cbv zeta. rewrite Hd.
    apply store_ok; [done|lia].
  - exists b, (<[Z.to_nat (Bits.encode i j) := v]> buf).
    split; [done|]. split; [apply lookup_insert_eq|].
    by rewrite length_insert.
  - apply represents_peek. intros i' j' Hi' Hj'.
    rewrite represents_peek in Hg. specialize (Hg i' j' Hi' Hj').
    assert (Hz' : 0 <= Bits.encode i' j' < 2 ^ (2 * k))
      by (apply encode_bound; lia).
    unfold Matrix.operator_call in *. cbv zeta in *. rewrite Hd in *.
    rewrite (peek_block _ b buf) in Hg by (done || lia).
    rewrite (peek_block _ b (<[Z.to_nat (Bits.encode i j) := v]> buf))
      by (apply lookup_insert_eq || lia).
    destruct (decide ((i', j') = (i, j))) as [[= -> ->]|Hne].
    + rewrite grid_set_same. apply list_lookup_insert_eq. lia.
    + rewrite grid_set_other by done.
      rewrite list_lookup_insert_ne; [done|].
      intros Heq%Z2Nat.inj; [|lia..].
      apply (encode_inj k) in Heq; [|lia..].
      apply Hne. by destruct Heq as [-> ->].
  - intros b' Hb'. apply lookup_insert_ne. congruence.
Qed.

Lemma run_represents a k acc : forall h g,
  0 <= k <= 31 -> Matrix.rank a = 2 ^ k -> owns h a -> represents h a g ->
  Forall (in_range a) acc ->
  exists h',
    Client.run a acc h = Ok (expected_reads g acc) h' /\ owns h' a /\
    represents h' a (after_accesses g acc) /\
    forall b, _data a <> Some b -> h' !! b = h !! b.
Proof.
  induction acc as [|[i j|i j v] acc IH]; intros h g Hk Hr Hown Hg Hacc.
  - exists h. done.
  - apply Forall_cons in Hacc as [[Hi Hj] Hacc].
    destruct (IH h g Hk Hr Hown Hg Hacc) as (h' & Hrun & ? & ? & ?).
    exists h'. split; [|done]. cbn [Client.run expected_reads].
    unfold mbind, M_bind. rewrite (Hg i j Hi Hj), Hrun. done.
  - apply Forall_cons in Hacc as [[Hi Hj] Hacc].
    destruct (put_represents a k h g i j v) as (h1 & Hput & Hown1 & Hg1 & Hfr1);
      [done..|].
    destruct (IH h1 _ Hk Hr Hown1 Hg1 Hacc) as (h' & Hrun & ? & ? & Hfr).
    exists h'. split_and!; try done.
    + cbn [Client.run expected_reads]. unfold mbind, M_bind.
      by rewrite Hput.
    + intros b Hb. rewrite Hfr, Hfr1 by done. done.
Qed.
End Memory.

(** *** Access beyond the array *)

Lemma get_undefined_beyond {T : Type} (a : matrix) (h : heap T) b buf i j :
  _data a = Some b -> h !! b = Some buf ->
  Z.of_nat (length buf) <= Bits.encode i j ->
  Matrix.get a i j h = Undefined.
Proof.
  intros Hd Hb Hz. pose proof (encode_nonneg i j).
  rewrite get_eq. unfold Matrix.operator_call. cbv zeta. rewrite Hd.
  rewrite (peek_block h b buf) by (done || lia).
  rewrite lookup_ge_None_2 by lia. done.
Qed.

Lemma put_undefined_beyond {T : Type} (a : matrix) (h : heap T) b buf i j v :
  _data a = Some b -> h !! b = Some buf ->
  Z.of_nat (length buf) <= Bits.encode i j ->
  Matrix.put a i j v h = Undefined.
Proof.
  intros Hd Hb Hz.
  unfold Matrix.put, Matrix.operator_call, store. cbv zeta. rewrite Hd.
  simpl. rewrite Hb.
  destruct (Z.ltb_spec (Bits.encode i j) (Z.of_nat (length buf))); [lia|].
  by rewrite andb_false_r.
Qed.

(** A write in range followed by a read at the same coordinates. *)
Lemma put_then_get {T : Type} (a : matrix) (k : Z) (h : heap T) i j v :
  0 <= k <= 31 -> Matrix.rank a = 2 ^ k -> owns h a ->
  0 <= i < Matrix.rank a -> 0 <= j < Matrix.rank a ->
  exists h', Matrix.put a i j v h = Ok tt h' /\ owns h' a /\
             Matrix.get a i j h' = Ok v h'.
Proof.
  intros Hk Hr (b & buf & Hd & Hb & Hlen) Hi Hj.
  pose proof (size_pow2 a k Hk Hr) as Hsz.
  assert (Hz : 0 <= Bits.encode i j < 2 ^ (2 * k))
    by (apply encode_bound; lia).
  exists (<[b := <[Z.to_nat (Bits.encode i j) := v]> buf]> h).
  split_and!.
  - unfold Matrix.put, Matrix.operator_call. cbv zeta. rewrite Hd.
    apply store_ok; [done|lia].
  - exists b, (<[Z.to_nat (Bits.encode i j) := v]> buf).
    split; [done|]. split; [apply lookup_insert_eq|].
    by rewrite length_insert.
  - rewrite get_eq. unfold Matrix.operator_call. cbv zeta. rewrite Hd.
    rewrite (peek_block _ b (<[Z.to_nat (Bits.encode i j) := v]> buf))
      by (apply lookup_insert_eq || lia).
    rewrite list_lookup_insert_eq by lia. done.
Qed.


(** *** The end of the array, and the loop over it *)

Section Traversal.
Context {T : Type}.
Implicit Types (h : heap T) (a : matrix).

Lemma ptr_offset_within h b buf o n :
  h !! b = Some buf -> 0 <= o + n <= Z.of_nat (length buf) ->
  ptr_offset (Ptr (Some b) o) n h = Ok (Ptr (Some b) (o + n)) h.
Proof.
  intros Hb Hn. unfold ptr_offset. simpl. rewrite Hb.
  destruct (Z.leb_spec 0 (o + n)); [|lia].
  destruct (Z.leb_spec (o + n) (Z.of_nat (length buf))); [|lia].
  by rewrite orb_true_r.
Qed.

Lemma ptr_offset_null h n :
  ptr_offset (Ptr None 0) n h =
    if n =? 0 then Ok (Ptr None n) h else Undefined.
Proof.
  unfold ptr_offset. simpl. rewrite orb_false_r.
  by destruct (Z.eqb_spec n 0).
Qed.

Lemma ptr_offset_beyond h b buf n :
  h !! b = Some buf -> Z.of_nat (length buf) < n ->
  ptr_offset (Ptr (Some b) 0) n h = Undefined.
Proof.
  intros Hb Hn. unfold ptr_offset. simpl. rewrite Hb, !Z.add_0_l.
  destruct (Z.eqb_spec n 0); [lia|].
  destruct (Z.leb_spec n (Z.of_nat (length buf))); [lia|].
  by destruct (0 <=? n).
Qed.

(** [end()] of a matrix that holds its array. *)
Lemma end_owns h a b buf :
  _data a = Some b -> h !! b = Some buf ->
  Z.of_nat (length buf) = Matrix.size a ->
  Matrix.end_ a h
  = Ok (Iterator.make (Ptr (Some b) 0) (Ptr (Some b) (Matrix.size a))) h.
Proof.
  intros Hd Hb Hlen. unfold Matrix.end_, Matrix.data, mbind, M_bind.
  rewrite Hd, (ptr_offset_within h b buf) by (done || lia). done.
Qed.

(** [end()] of a matrix without array: defined for size 0 only. *)
Lemma end_null h a :
  _data a = None ->
  Matrix.end_ a h =
    if Matrix.size a =? 0 then Ok (Iterator.make nullptr nullptr) h
    else Undefined.
Proof.
  intros Hd. unfold Matrix.end_, Matrix.data, mbind, M_bind.
  rewrite Hd, ptr_offset_null.
  by destruct (Z.eqb_spec (Matrix.size a) 0) as [->|].
Qed.

Lemma visit_spec h b buf (l : list T) : forall (o fuel : nat),
  h !! b = Some buf -> drop o buf = l -> (length l <= fuel)%nat ->
  Client.visit fuel
    (Iterator.make (Ptr (Some b) 0) (Ptr (Some b) (Z.of_nat o)))
    (Iterator.make (Ptr (Some b) 0)
                   (Ptr (Some b) (Z.of_nat o + Z.of_nat (length l)))) h
  = Ok (imap (fun i v => (decode (Z.of_nat (o + i)), v)) l) h.
Proof.
  induction l as [|x l IH]; intros o fuel Hb Hdrop Hfuel.
  - destruct fuel; simpl; by rewrite operator_ne_offsets.
  - destruct fuel as [|fuel]; [simpl in Hfuel; lia|].
    assert (Hx : buf !! o = Some x).
    { rewrite <- (Nat.add_0_r o), <- lookup_drop, Hdrop. done. }
    assert (Hdrop' : drop (S o) buf = l).
    { rewrite (drop_S _ _ _ Hx) in Hdrop. by injection Hdrop. }
    cbn [Client.visit]. rewrite operator_ne_offsets.
    destruct (Z.eqb_spec (Z.of_nat (length (x :: l))) 0);
      [simpl in *; lia|].
    change (negb false) with true. cbv iota.
    unfold mbind, M_bind, Iterator.operator_deref.
    change (_ptr (Iterator.make (Ptr (Some b) 0) (Ptr (Some b) (Z.of_nat o))))
      with (Ptr (Some b) (Z.of_nat o)).
    rewrite (load_ok _ _ x)
      by (rewrite (peek_block _ b buf), Nat2Z.id by (done || lia); done).
    change (Iterator.operator_inc
              (Iterator.make (Ptr (Some b) 0) (Ptr (Some b) (Z.of_nat o)))).1
      with (Iterator.make (Ptr (Some b) 0) (Ptr (Some b) (Z.of_nat o + 1))).
    replace (Z.of_nat o + 1) with (Z.of_nat (S o)) by lia.
    replace (Z.of_nat o + Z.of_nat (length (x :: l)))
      with (Z.of_nat (S o) + Z.of_nat (length l)) by (simpl length; lia).
    rewrite (IH (S o) fuel) by (done || (simpl in Hfuel; lia)).
    unfold mret, M_ret. f_equal. rewrite imap_cons. f_equal.
    + rewrite iterator_coordinates. unfold ptr_diff. simpl.
      rewrite Z.sub_0_r, Nat.add_0_r. done.
    + apply imap_ext. intros i v _. simpl. do 3 f_equal. lia.
Qed.

Lemma visited_coordinates (buf : list T) :
  (imap (fun i v => (decode (Z.of_nat (0 + i)), v)) buf).*1
  = decode <$> seqZ 0 (Z.of_nat (length buf)).
Proof.
  apply list_eq. intros i.
  rewrite !list_lookup_fmap, list_lookup_imap.
  destruct (buf !! i) as [v|] eqn:Hi; simpl.
  - apply lookup_lt_Some in Hi. rewrite lookup_seqZ_lt by lia. done.
  - apply lookup_ge_None in Hi. rewrite lookup_seqZ_ge by lia. done.
Qed.

Lemma visited_values (buf : list T) :
  (imap (fun i v => (decode (Z.of_nat (0 + i)), v)) buf).*2 = buf.
Proof.
  apply list_eq. intros i. rewrite list_lookup_fmap, list_lookup_imap.
  by destruct (buf !! i).
Qed.
End Traversal.

(** C2 (iteration completeness, bijection), as the code has it.  For every
    rank [r = 2^k] that fits 32 bits, [encode] maps [[0,r) x [0,r)]
    one-to-one onto the offsets [[0, r*r)].  For a matrix of rank
    [r = 2^k] below [2^16] that holds its array of [size()] elements, the
    loop from [begin()] to [end()] stops after exactly [r*r] positions; the
    elements it dereferences are the elements of the array, each once and
    in order; each is the element the accessor returns for the coordinates
    then reported; and the pairs [(x(), y())] reported are, as a multiset,
    the Cartesian product [[0,r) x [0,r)], each pair once. *)
Theorem iteration_completeness
    {T : Type} (a : matrix) (k : Z) (h : heap T) (b : nat) (buf : list T) :
  0 <= k <= 31 -> Matrix.rank a = 2 ^ k ->
  let r := 2 ^ k in
  ((forall x y, 0 <= x < r -> 0 <= y < r -> 0 <= Bits.encode x y < r * r) /\
   (forall x y x' y',
      0 <= x < r -> 0 <= y < r -> 0 <= x' < r -> 0 <= y' < r ->
      Bits.encode x y = Bits.encode x' y' -> x = x' /\ y = y') /\
   (forall z, 0 <= z < r * r ->
      exists x y, 0 <= x < r /\ 0 <= y < r /\ Bits.encode x y = z)) /\
  (k < 16 -> _data a = Some b -> h !! b = Some buf ->
   Z.of_nat (length buf) = Matrix.size a ->
   exists visited : list (Z * Z * T),
     (forall fuel, (Z.to_nat (Matrix.size a) <= fuel)%nat ->
        Client.traverse fuel a h = Ok visited h) /\
     Matrix.size a = r * r /\
     Z.of_nat (length visited) = r * r /\
     visited.*2 = buf /\
     (forall x y v, (x, y, v) ∈ visited ->
        0 <= x < r /\ 0 <= y < r /\ Matrix.get a x y h = Ok v h) /\
     NoDup visited.*1 /\
     visited.*1 ≡ₚ list_prod (seqZ 0 r) (seqZ 0 r)).
Proof.
  intros Hk Hr r.
  pose proof (pow2_rank_range k Hk) as Hrange.
  assert (Hsq : r * r = 2 ^ (2 * k)) by (apply pow2_square; lia).
  assert (Hpos : 0 < 2 ^ (2 * k)) by (apply Z.pow_pos_nonneg; lia).
  pose proof (size_pow2 a k Hk Hr) as Hsz.
  split.
  { split_and!.
    - intros x y Hx Hy. rewrite Hsq. apply encode_bound; lia.
    - intros x y x' y' Hx Hy Hx' Hy'. by apply (encode_inj k).
    - intros z Hz. rewrite Hsq in Hz.
      destruct (decode_bound k z Hk Hz) as [Hx Hy].
      exists (decode z).1, (decode z).2.
      split; [exact Hx|]. split; [exact Hy|]. by apply (encode_decode k). }
  intros Hk16 Hd Hb Hlen.
  set (visited := imap (fun i v => (decode (Z.of_nat (0 + i)), v)) buf).
  assert (Hcoords : visited.*1 = decode <$> seqZ 0 (2 ^ (2 * k))).
  { unfold visited. rewrite visited_coordinates. do 2 f_equal. lia. }
  exists visited. split_and!.
  - intros fuel Hfuel. unfold Client.traverse, mbind, M_bind.
    rewrite (end_owns h a b buf) by done.
    unfold Matrix.begin_, Matrix.data. rewrite Hd, <- Hlen.
    apply (visit_spec h b buf buf 0 fuel Hb eq_refl). lia.
  - by rewrite Hsq.
  - unfold visited. rewrite length_imap. lia.
  - apply visited_values.
  - intros x y v (i & Hi)%list_elem_of_lookup.
    unfold visited in Hi. rewrite list_lookup_imap in Hi.
    destruct (buf !! i) as [v'|] eqn:Hbi; simplify_eq/=.
    pose proof (lookup_lt_Some _ _ _ Hbi) as Hlt.
    assert (Hz : 0 <= Z.of_nat i < 2 ^ (2 * k)) by lia.
    destruct (decode_bound k _ Hk Hz) as [Hx Hy].
    pose proof (encode_decode k _ Hk Hz) as Henc.
    destruct (decode (Z.of_nat i)) as [x' y'] eqn:Hdec.
    simplify_eq/=. split; [exact Hx|]. split; [exact Hy|].
    rewrite get_eq. unfold Matrix.operator_call. cbv zeta.
    rewrite Hd. simpl in Henc. rewrite Henc.
    rewrite (peek_block h b buf) by (done || lia).
    by rewrite Nat2Z.id, Hbi.
  - rewrite Hcoords. by apply decoded_offsets_NoDup.
  - rewrite Hcoords. by apply decoded_offsets_product.
Qed.

Lemma iteration_completeness_witness :
  let a := {| _rank := 2; _data := Some 0%nat |} in
  let h : heap Z := {[ 0%nat := [10; 11; 12; 13] ]} in
  (0 <= 1 <= 31 /\ Matrix.rank a = 2 ^ 1 /\ 1 < 16 /\
   _data a = Some 0%nat /\ h !! 0%nat = Some [10; 11; 12; 13] /\
   Z.of_nat (length [10; 11; 12; 13]) = Matrix.size a) /\
  exists visited,
    Client.traverse 4 a h = Ok visited h /\
    visited.*2 = [10; 11; 12; 13] /\
    visited.*1 ≡ₚ list_prod (seqZ 0 2) (seqZ 0 2).
Proof.
  intros a h. split; [split_and!; reflexivity || lia|].
  destruct (iteration_completeness a 1 h 0 [10; 11; 12; 13]) as [_ Hloop];
    [lia|reflexivity|].
  destruct Hloop as (visited & Hrun & _ & _ & Hvals & _ & _ & Hperm);
    [lia|reflexivity..|].
  exists visited. split; [apply Hrun; vm_compute; lia|].
  split; [exact Hvals|exact Hperm].
Defined.

(** C2 as stated fails: a matrix of rank 2 that has been moved from has
    no array, [end()] is a computation on a null pointer and the loop is
    undefined; and the matrix constructed with rank [2^16] has an empty
    array, of which [data() + size()] is no position. *)
Lemma traversal_of_moved_from_undefined :
  (exists a vars (h : heap Z),
     Client.exec zeros [Client.Construct 2; Client.MoveConstruct 0] [] ∅
       = Ok (a :: vars) h /\
     Matrix.rank a = 2 ^ 1 /\
     Matrix.end_ a h = Undefined /\
     forall fuel, Client.traverse fuel a h = Undefined) /\
  (exists a (h : heap Z),
     Matrix.of_rank zeros 65536 ∅ = Ok a h /\
     Matrix.rank a = 2 ^ 16 /\
     Matrix.end_ a h = Undefined /\
     forall fuel, Client.traverse fuel a h = Undefined).
Proof.
  split.
  - eexists _, _, _. split; [vm_compute; reflexivity|].
    split; [reflexivity|]. split; [vm_compute; reflexivity|].
    intros fuel. vm_compute. reflexivity.
  - eexists _, _. split; [vm_compute; reflexivity|].
    split; [reflexivity|]. split; [vm_compute; reflexivity|].
    intros fuel. vm_compute. reflexivity.
Qed.

(** C8 (storage-order independence of random access), as the code has
    it.  On a matrix of rank
    [2^k] that holds its array of [size()] elements, every sequence of
    in-range reads and writes through the accessor runs to completion, and
    each read at [(i,j)] returns the value most recently written at
    [(i,j)] (the initial one if there was none): the values read are those
    of the array indexed by coordinates, where a write changes its own
    coordinates only. *)
Theorem accessor_reads_last_write
    {T : Type} (a : matrix) (k : Z) (h : heap T) (g : grid)
    (acc : list Client.access) :
  0 <= k <= 31 -> Matrix.rank a = 2 ^ k -> owns h a -> represents h a g ->
  Forall (in_range a) acc ->
  exists h',
    Client.run a acc h = Ok (expected_reads g acc) h' /\
    owns h' a /\
    represents h' a (after_accesses g acc) /\
    (forall i j v, grid_set g i j v i j = v) /\
    (forall i j v i' j',
       (i', j') <> (i, j) -> grid_set g i j v i' j' = g i' j').
Proof.
  intros Hk Hr Hown Hg Hacc.
  destruct (run_represents a k acc h g Hk Hr Hown Hg Hacc)
    as (h' & Hrun & Hown' & Hg' & _).
  exists h'. split_and!; try done.
  - intros. apply grid_set_same.
  - intros. by apply grid_set_other.
Qed.

Lemma accessor_reads_last_write_witness :
  let a := {| _rank := 2; _data := Some 0%nat |} in
  let h : heap Z := {[ 0%nat := [10; 11; 12; 13] ]} in
  let g : grid := fun i j => 10 + i + 2 * j in
  let acc := [Client.Put 0 1 5; Client.Get 0 1; Client.Put 1 0 6;
              Client.Get 0 1; Client.Get 1 1; Client.Get 1 0] in
  (0 <= 1 <= 31 /\ Matrix.rank a = 2 ^ 1 /\ owns h a /\ represents h a g /\
   Forall (in_range a) acc) /\
  exists h', Client.run a acc h = Ok [5; 5; 13; 6] h'.
Proof.
  intros a h g acc.
  assert (Hown : owns h a).
  { exists 0%nat, [10; 11; 12; 13]. split_and!; reflexivity. }
  assert (Hg : represents h a g).
  { intros i j Hi Hj. change (Matrix.rank a) with 2 in Hi, Hj.
    assert (Hi' : i = 0 \/ i = 1) by lia.
    assert (Hj' : j = 0 \/ j = 1) by lia.
    destruct Hi' as [-> | ->], Hj' as [-> | ->]; vm_compute; reflexivity. }
  assert (Hacc : Forall (in_range a) acc).
  { repeat constructor; simpl; lia. }
  split; [split_and!; try done; lia|].
  destruct (accessor_reads_last_write a 1 h g acc) as (h' & Hrun & _);
    [lia|reflexivity|done..|].
  exists h'. exact Hrun.
Defined.

(** C8 as stated fails: after [matrix<int> a(2); matrix<int> b(std::move(a));]
    the matrix [a] still has rank 2 but no array, and writing its element
    [(0,0)], which is in range, then reading it back is undefined
    behaviour. *)
Lemma accessor_on_moved_from_undefined :
  exists a vars (h : heap Z),
    Client.exec zeros [Client.Construct 2; Client.MoveConstruct 0] [] ∅
      = Ok (a :: vars) h /\
    Matrix.rank a = 2 /\
    Forall (in_range a) [Client.Put 0 0 1; Client.Get 0 0] /\
    Matrix.put a 0 0 1 h = Undefined /\
    Matrix.get a 0 0 h = Undefined /\
    Client.run a [Client.Put 0 0 1; Client.Get 0 0] h = Undefined.
Proof.
  eexists _, _, _. split; [vm_compute; reflexivity|].
  split; [reflexivity|].
  split; [repeat constructor; simpl; lia|].
  split_and!; vm_compute; reflexivity.
Qed.

(** C3 (the rank-4 scenario).  In a rank-4 matrix of integers, whatever
    the fresh array holds, after [a(1,2) = 42] the codec sends [(1,2)] to
    offset 9, [data()[9]] is 42, and the iterator advanced 9 times from
    [begin()] reports [x() = 1] and [y() = 2]. *)
Theorem rank_4_scenario (indeterminate : nat -> nat -> Z) (h : heap Z) :
  exists a h1 h2,
    Matrix.of_rank indeterminate 4 h = Ok a h1 /\
    Matrix.rank a = 4 /\
    Matrix.put a 1 2 42 h1 = Ok tt h2 /\
    Bits.encode 1 2 = 9 /\
    load (ptr_add (Matrix.data a) 9) h2 = Ok 42 h2 /\
    let it := Client.advance 9 (Matrix.begin_ a) in
    ptr_diff (_ptr it) (_start it) = 9 /\
    Iterator.x it = 1 /\ Iterator.y it = 2.
Proof.
  assert (Hpow : 4 = 0 \/ power_of_2 4) by (right; exists 2; split; [lia|reflexivity]).
  pose proof (of_rank_returns indeterminate 4 h ltac:(lia) Hpow) as Hnew.
  change (Z.to_nat (wrap32 (4 * 4))) with 16%nat in Hnew.
  revert Hnew. generalize (fresh (dom h)). intros b Hnew.
  set (buf := indeterminate b <$> seq 0 16) in *.
  assert (Henc : Bits.encode 1 2 = 9) by (vm_compute; reflexivity).
  exists {| _rank := 4; _data := Some b |}, (<[b := buf]> h),
         (<[b := <[9%nat := 42]> buf]> (<[b := buf]> h)).
  split_and!.
  - exact Hnew.
  - reflexivity.
  - unfold Matrix.put, Matrix.operator_call. cbv zeta. simpl _data.
    rewrite Henc. rewrite (store_ok _ b buf); [reflexivity| |].
    + apply lookup_insert_eq.
    + subst buf. rewrite length_fmap, length_seq. lia.
  - exact Henc.
  - apply load_ok. unfold Matrix.data, ptr_add. simpl blk_of. simpl ofs_of.
    rewrite (peek_block _ b (<[9%nat := 42]> buf)); [reflexivity| |lia].
    apply lookup_insert_eq.
  - clearbody buf. clear Hnew. vm_compute. repeat split.
Qed.

(** C5, at the rank [2^16].  The constructor accepts it; [r*r] wraps to 0
    in 32 bits, so the array it allocates is empty, while [size()] widens
    before it multiplies and returns [2^32]. *)
Theorem of_rank_65536_allocates_nothing
    {T : Type} (indeterminate : nat -> nat -> T) (h : heap T) :
  exists a h',
    Matrix.of_rank indeterminate 65536 h = Ok a h' /\
    Matrix.rank a = 65536 /\
    Matrix.size a = 4294967296 /\
    _data a = Some (fresh (dom h)) /\
    h' !! fresh (dom h) = Some [] /\
    ~ owns h' a.
Proof.
  eexists _, _. split.
  { apply of_rank_returns; [done|]. right. exists 16. by split. }
  split_and!; try done.
  - apply lookup_insert_eq.
  - intros (b & buf & Hd & Hb & Hlen). simpl in Hd. simplify_eq.
    rewrite lookup_insert_eq in Hb. simplify_eq.
Qed.

(** C7 (the constructor's precondition), over the 32-bit ranks.  The
    constructor stops on its assertion exactly when [r] is neither 0 nor a
    power of 2.  For 0 and for a power of 2 it returns a matrix of rank
    [r]; below [2^16] that matrix holds its array of [size()] elements and
    every element can be written and read back, but from [2^16] up the
    array is empty ([r*r] has wrapped to 0) and writing or reading any
    element is undefined behaviour: a matrix that cannot be used. *)
Theorem constructor_outcome
    {T : Type} (indeterminate : nat -> nat -> T) (r : Z) (h : heap T) :
  0 <= r < 2 ^ 32 ->
  (Matrix.of_rank indeterminate r h = Abort <-> ~ (r = 0 \/ power_of_2 r)) /\
  (r = 0 \/ power_of_2 r ->
     exists a h',
       Matrix.of_rank indeterminate r h = Ok a h' /\
       Matrix.rank a = r /\
       (r < 2 ^ 16 ->
          owns h' a /\
          forall i j v, 0 <= i < r -> 0 <= j < r ->
            exists h'', Matrix.put a i j v h' = Ok tt h'' /\
                        Matrix.get a i j h'' = Ok v h'') /\
       (2 ^ 16 <= r ->
          ~ owns h' a /\
          forall i j v, 0 <= i < r -> 0 <= j < r ->
            Matrix.get a i j h' = Undefined /\
            Matrix.put a i j v h' = Undefined)).
Proof.
  intros Hr. split; [by apply of_rank_aborts|]. intros Hpow.
  eexists _, _. split; [by apply of_rank_returns|]. split; [done|]. split.
  - intros Hsmall.
    destruct (of_rank_owns indeterminate r h)
      as (a & h' & Hok & _ & Hown & _); [lia|done|].
    rewrite of_rank_returns in Hok by done. injection Hok as <- <-.
    split; [done|]. intros i j v Hi Hj.
    destruct Hpow as [->|Hp]; [lia|].
    destruct (power_of_2_below r 16) as (k & Hk & Hrk); [lia|done|lia|].
    destruct (put_then_get {| _rank := r; _data := Some (fresh (dom h)) |}
                k _ i j v ltac:(lia) Hrk Hown)
      as (h'' & Hput & _ & Hget); [done..|].
    by exists h''.
  - intros Hbig. destruct Hpow as [->|Hp]; [lia|].
    destruct (power_of_2_below r 32) as (k & Hk & ->); [lia|done|lia|].
    assert (Hk16 : 16 <= k).
    { destruct (Z.le_gt_cases 16 k) as [|Hlt]; [done|].
      apply (Z.pow_lt_mono_r 2) in Hlt; lia. }
    assert (Hwrap : wrap32 (2 ^ k * 2 ^ k) = 0).
    { rewrite pow2_square by lia. unfold wrap32.
      replace (2 * k) with ((2 * k - 32) + 32) by lia.
      rewrite Z.pow_add_r by lia. by rewrite Z.mod_mul. }
    rewrite Hwrap. simpl. split.
    + intros (b & buf & Hd & Hb & Hlen). simpl in Hd. simplify_eq.
      rewrite lookup_insert_eq in Hb. simplify_eq.
      rewrite (size_pow2 _ k) in Hlen by (lia || done).
      assert (0 < 2 ^ (2 * k)) by (apply Z.pow_pos_nonneg; lia).
      simpl in Hlen. lia.
    + intros i j v _ _. pose proof (encode_nonneg i j). split.
      * eapply get_undefined_beyond; [done|apply lookup_insert_eq|done].
      * eapply put_undefined_beyond; [done|apply lookup_insert_eq|done].
Qed.

Lemma constructor_outcome_witness :
  0 <= 65536 < 2 ^ 32 /\
  Matrix.of_rank zeros 3 (∅ : heap Z) = Abort /\
  exists a h',
    Matrix.of_rank zeros 65536 (∅ : heap Z) = Ok a h' /\
    Matrix.rank a = 65536 /\
    Matrix.get a 0 0 h' = Undefined.
Proof.
  split; [lia|]. split; [vm_compute; reflexivity|].
  destruct (constructor_outcome zeros 65536 (∅ : heap Z)) as [_ Hret]; [lia|].
  destruct Hret as (a & h' & Hok & Hrank & _ & Hbig).
  { right. exists 16. split; [lia|reflexivity]. }
  exists a, h'. split; [exact Hok|]. split; [exact Hrank|].
  destruct Hbig as [_ Hacc]; [lia|].
  apply (Hacc 0 0 0); lia.
Defined.

(** *** [std::copy] and [duplicate] *)

Section Duplicate.
Context {T : Type}.
Variable indeterminate : nat -> nat -> T.
Implicit Types (h : heap T) (a : matrix) (g : grid (T := T)).

Lemma copy_nothing fuel first last d h :
  _ptr first = _ptr last -> Matrix.copy fuel first last d h = Ok d h.
Proof.
  intros Heq.
  assert (Iterator.operator_ne first last = false) as Hne.
  { unfold Iterator.operator_ne, Iterator.operator_eq.
    by rewrite bool_decide_eq_true_2. }
  destruct fuel; simpl; by rewrite Hne.
Qed.

Lemma copy_spec bs bd sbuf (n : nat) : forall fuel (o : nat) h dbuf,
  (n <= fuel)%nat -> bs <> bd ->
  h !! bs = Some sbuf -> h !! bd = Some dbuf ->
  (o + n <= length sbuf)%nat -> (o + n <= length dbuf)%nat ->
  exists dbuf',
    Matrix.copy fuel
      (Iterator.make (Ptr (Some bs) 0) (Ptr (Some bs) (Z.of_nat o)))
      (Iterator.make (Ptr (Some bs) 0)
                     (Ptr (Some bs) (Z.of_nat o + Z.of_nat n)))
      (Iterator.make (Ptr (Some bd) 0) (Ptr (Some bd) (Z.of_nat o))) h
    = Ok (Iterator.make (Ptr (Some bd) 0)
                        (Ptr (Some bd) (Z.of_nat o + Z.of_nat n)))
         (<[bd := dbuf']> h) /\
    length dbuf' = length dbuf /\
    (forall i, (o <= i < o + n)%nat -> dbuf' !! i = sbuf !! i) /\
    (forall i, ~ (o <= i < o + n)%nat -> dbuf' !! i = dbuf !! i).
Proof.
  induction n as [|n IH]; intros fuel o h dbuf Hfuel Hne Hs Hd Hsl Hdl.
  - exists dbuf. split_and!; try done.
    + rewrite copy_nothing by (simpl; f_equal; lia).
      rewrite insert_id by done. do 3 f_equal. lia.
    + lia.
  - destruct fuel as [|fuel]; [lia|].
    destruct (lookup_lt_is_Some_2 sbuf o) as [x Hx]; [lia|].
    set (dbuf1 := <[o := x]> dbuf).
    destruct (IH fuel (S o) (<[bd := dbuf1]> h) dbuf1)
      as (dbuf' & Hcopy & Hlen & Hin & Hout).
    { lia. } { done. } { by rewrite lookup_insert_ne. }
    { apply lookup_insert_eq. } { lia. }
    { subst dbuf1. rewrite length_insert. lia. }
    exists dbuf'. split_and!.
    + cbn [Matrix.copy]. rewrite operator_ne_offsets.
      destruct (Z.eqb_spec (Z.of_nat (S n)) 0); [lia|].
      change (negb false) with true. cbv iota.
      unfold mbind, M_bind, Iterator.operator_deref, Iterator.make.
      cbv beta. simpl _ptr.
      rewrite (load_ok _ _ x)
        by (rewrite (peek_block _ bs sbuf), Nat2Z.id by (done || lia); done).
      rewrite (store_ok _ bd dbuf), Nat2Z.id by (done || lia).
      fold dbuf1.
      unfold Iterator.operator_inc, Iterator.make, ptr_add in *.
      simpl in *.
      replace (Z.of_nat o + 1) with (Z.of_nat (S o)) by lia.
      replace (Z.of_nat o + Z.of_nat (S n))
        with (Z.of_nat (S o) + Z.of_nat n) by lia.
      rewrite Hcopy. by rewrite insert_insert_eq.
    + subst dbuf1. by rewrite Hlen, length_insert.
    + intros i Hi. destruct (decide (i = o)) as [->|Hio].
      * rewrite Hout by lia. subst dbuf1.
        rewrite list_lookup_insert_eq by lia. done.
      * apply Hin. lia.
    + intros i Hi. rewrite Hout by lia. subst dbuf1.
      apply list_lookup_insert_ne. lia.
Qed.

(** Copying a whole array over one of the same length. *)
Lemma copy_all bs bd sbuf dbuf h :
  bs <> bd -> h !! bs = Some sbuf -> h !! bd = Some dbuf ->
  length dbuf = length sbuf ->
  Matrix.copy (length sbuf)
    (Iterator.make (Ptr (Some bs) 0) (Ptr (Some bs) 0))
    (Iterator.make (Ptr (Some bs) 0)
                   (Ptr (Some bs) (0 + Z.of_nat (length sbuf))))
    (Iterator.make (Ptr (Some bd) 0) (Ptr (Some bd) 0)) h
  = Ok (Iterator.make (Ptr (Some bd) 0)
                      (Ptr (Some bd) (0 + Z.of_nat (length sbuf))))
       (<[bd := sbuf]> h).
Proof.
  intros Hne Hs Hd Hlen.
  destruct (copy_spec bs bd sbuf (length sbuf) (length sbuf) 0 h dbuf)
    as (dbuf' & Hcopy & Hlen' & Hin & _); [done..|lia|lia|].
  change (Z.of_nat 0) with 0 in Hcopy. rewrite Hcopy.
  do 2 f_equal. apply list_eq. intros i.
  destruct (decide (i < length sbuf)%nat) as [Hi|Hi].
  - apply Hin. lia.
  - rewrite !lookup_ge_None_2 by lia. done.
Qed.

Lemma const_begin_ill_formed a h : Matrix.const_begin a h = IllFormed.
Proof. done. Qed.

Lemma const_end_not_ok a h last h' : Matrix.const_end a h <> Ok last h'.
Proof.
  unfold Matrix.const_end, mbind, M_bind.
  by destruct (ptr_offset (Matrix.data a) (Matrix.size a) h).
Qed.

Lemma duplicate_eq a h :
  Matrix.duplicate indeterminate a h =
    if Z.land (_rank a) (wrap32 (_rank a - 1)) =? 0 then IllFormed else Abort.
Proof.
  unfold Matrix.duplicate, mbind, M_bind. rewrite of_rank_eq.
  by destruct (Z.land (_rank a) (wrap32 (_rank a - 1)) =? 0).
Qed.

End Duplicate.

(** C9 (duplicate independence), at any matrix.  [duplicate()] is a
    [const] member, so the [begin()] and [end()] it passes to [std::copy]
    are the [const] ones; these build a [matrix_iterator<const T>] with its
    private constructor, which that class opens to [matrix<const T>] only.
    The call is rejected when [duplicate()] is instantiated: whatever the
    matrix and the store, no duplicate is returned. *)
Theorem duplicate_cannot_be_instantiated
    {T : Type} (indeterminate : nat -> nat -> T) (a : matrix) (h : heap T) :
  Matrix.const_begin a h = IllFormed /\
  (forall last h', Matrix.const_end a h <> Ok last h') /\
  (forall b h', Matrix.duplicate indeterminate a h <> Ok b h') /\
  (0 <= Matrix.rank a < 2 ^ 32 ->
   Matrix.rank a = 0 \/ power_of_2 (Matrix.rank a) ->
   Matrix.duplicate indeterminate a h = IllFormed).
Proof.
  split; [done|]. split; [apply const_end_not_ok|]. split.
  - intros b h'. rewrite duplicate_eq.
    by destruct (Z.land (_rank a) (wrap32 (_rank a - 1)) =? 0).
  - intros Hr Hpow. rewrite duplicate_eq.
    apply (assertion_holds_iff _ Hr) in Hpow. unfold Matrix.rank in Hpow.
    by rewrite Hpow.
Qed.

Lemma duplicate_cannot_be_instantiated_witness :
  let a := {| _rank := 2; _data := Some 0%nat |} in
  let h : heap Z := {[ 0%nat := [10; 11; 12; 13] ]} in
  (0 <= Matrix.rank a < 2 ^ 32 /\
   (Matrix.rank a = 0 \/ power_of_2 (Matrix.rank a))) /\
  Matrix.duplicate zeros a h = IllFormed.
Proof.
  intros a h.
  assert (Hr : 0 <= Matrix.rank a < 2 ^ 32) by (simpl; lia).
  assert (Hpow : Matrix.rank a = 0 \/ power_of_2 (Matrix.rank a)).
  { right. exists 1. split; [lia|reflexivity]. }
  split; [split; assumption|].
  destruct (duplicate_cannot_be_instantiated zeros a h) as (_ & _ & _ & Hdup).
  exact (Hdup Hr Hpow).
Defined.

(** *** Moves *)

(** C4 (move semantics), as the code has it.  Moving [a] into [b], by
    construction or by assignment to a matrix that holds another array or
    none, gives [b] the rank of [a] and the very array of [a], so every
    element is found in [b] at its coordinates; [a] is left without an
    array.  Its rank is not reset: [a.rank()] still returns the rank it
    had. *)
Theorem move_transfers_array
    {T : Type} (a this : matrix) (h : heap T) :
  (forall old, _data this = Some old ->
               is_Some (h !! old) /\ _data a <> Some old) ->
  (let b := (Matrix.move a).1 in
   let a' := (Matrix.move a).2 in
   Matrix.rank b = Matrix.rank a /\
   (forall i j, Matrix.get b i j h = Matrix.get a i j h) /\
   (owns h a -> owns h b) /\
   _data a' = None /\ Matrix.rank a' = Matrix.rank a) /\
  (exists b a' h',
     Matrix.operator_move_assign this a h = Ok (b, a') h' /\
     Matrix.rank b = Matrix.rank a /\
     (forall i j, peek h' (Matrix.operator_call b i j)
                  = peek h (Matrix.operator_call a i j)) /\
     (owns h a -> owns h' b) /\
     _data a' = None /\ Matrix.rank a' = Matrix.rank a).
Proof.
  intros Hthis. split.
  - simpl. split_and!; try done.
  - unfold Matrix.operator_move_assign, mbind, M_bind.
    destruct (_data this) as [old|] eqn:Hold.
    + destruct (Hthis old eq_refl) as [[buf Hbuf] Hne].
      unfold delete_array. rewrite Hbuf.
      eexists _, _, _. split; [done|]. split_and!; try done.
      * intros i j. unfold peek, Matrix.operator_call. simpl.
        destruct (_data a) as [b|]; [|done].
        rewrite lookup_delete_ne by congruence. done.
      * intros (b & sbuf & Hd & Hs & Hlen). exists b, sbuf.
        split_and!; try done. rewrite lookup_delete_ne; [done|]. congruence.
    + eexists _, _, _. split; [done|]. split_and!; done.
Qed.

Lemma move_transfers_array_witness :
  let a := {| _rank := 2; _data := Some 0%nat |} in
  let this := {| _rank := 1; _data := Some 1%nat |} in
  let h : heap Z := {[ 0%nat := [10; 11; 12; 13]; 1%nat := [7] ]} in
  (forall old, _data this = Some old ->
               is_Some (h !! old) /\ _data a <> Some old) /\
  exists b a' h',
    Matrix.operator_move_assign this a h = Ok (b, a') h' /\
    Matrix.rank b = 2 /\ Matrix.rank a' = 2 /\ _data a' = None.
Proof.
  intros a this h.
  assert (Hthis : forall old, _data this = Some old ->
                              is_Some (h !! old) /\ _data a <> Some old).
  { intros old [= <-]. split; [by exists [7]|discriminate]. }
  split; [exact Hthis|].
  destruct (move_transfers_array a this h Hthis)
    as (_ & b & a' & h' & Hmv & Hb & _ & _ & Hnull & Ha').
  exists b, a', h'. split_and!; assumption.
Defined.

(** C4 as stated fails: after a rank-4 matrix is moved from, its [rank()]
    is still 4, not 0. *)
Lemma moved_from_keeps_rank :
  exists a h,
    Matrix.of_rank zeros 4 ∅ = Ok a h /\
    Matrix.rank (Matrix.move a).1 = 4 /\
    _data (Matrix.move a).2 = None /\
    Matrix.rank (Matrix.move a).2 = 4 /\
    Matrix.rank (Matrix.move a).2 <> 0.
Proof. eexists _, _. split; [vm_compute; reflexivity|]. by vm_compute. Qed.

(** *** Stepping an iterator *)

Lemma ptr_add_add p n m : ptr_add (ptr_add p n) m = ptr_add p (n + m).
Proof. destruct p. unfold ptr_add. simpl. f_equal. lia. Qed.

Lemma ptr_add_0 p : ptr_add p 0 = p.
Proof. destruct p. unfold ptr_add. simpl. f_equal. lia. Qed.

Lemma ptr_diff_add p q n : ptr_diff (ptr_add p n) q = ptr_diff p q + n.
Proof. destruct p, q. unfold ptr_diff, ptr_add. simpl. lia. Qed.

(** C10 (increment and decrement are mutually inverse).  For an iterator
    [k] elements past its start in an array of [size] elements: if
    [0 <= k < size], [++] stays within [[0, size]] and [--] after it gives
    back the iterator at offset [k]; if [0 < k <= size], the same holds for
    [--] then [++]; and the reference each operator returns designates the
    iterator it has just updated. *)
Theorem increment_decrement_inverse (it : matrix_iterator) (k size : Z) :
  ptr_diff (_ptr it) (_start it) = k ->
  (0 <= k < size ->
     let it1 := (Iterator.operator_inc it).1 in
     let it2 := (Iterator.operator_dec it1).1 in
     ptr_diff (_ptr it1) (_start it1) = k + 1 /\
     0 <= ptr_diff (_ptr it1) (_start it1) <= size /\
     it2 = it /\ ptr_diff (_ptr it2) (_start it2) = k) /\
  (0 < k <= size ->
     let it1 := (Iterator.operator_dec it).1 in
     let it2 := (Iterator.operator_inc it1).1 in
     ptr_diff (_ptr it1) (_start it1) = k - 1 /\
     0 <= ptr_diff (_ptr it1) (_start it1) <= size /\
     it2 = it /\ ptr_diff (_ptr it2) (_start it2) = k) /\
  (Iterator.operator_inc it).2 = (Iterator.operator_inc it).1 /\
  (Iterator.operator_dec it).2 = (Iterator.operator_dec it).1.
Proof.
  intros Hk. destruct it as [p s]. simpl in *.
  split_and!; try done; intros Hrange; simpl;
    rewrite ?ptr_add_add, ?ptr_diff_add, ?ptr_add_0; simpl;
    rewrite ?ptr_add_0; split_and!; try done; lia.
Qed.

Lemma increment_decrement_inverse_witness :
  let a := {| _rank := 2; _data := Some 0%nat |} in
  let it := Client.advance 3 (Matrix.begin_ a) in
  (ptr_diff (_ptr it) (_start it) = 3 /\ 0 <= 3 < 4 /\ 0 < 3 <= 4) /\
  (Iterator.operator_dec (Iterator.operator_inc it).1).1 = it /\
  (Iterator.operator_inc (Iterator.operator_dec it).1).1 = it.
Proof.
  intros a it. split; [split; [reflexivity|lia]|].
  destruct (increment_decrement_inverse it 3 4 eq_refl) as (Hid & Hdi & _).
  split.
  - apply Hid. lia.
  - apply Hdi. lia.
Defined.

(** *** The invariant of the reachable states *)

Section Invariant.
Context {T : Type}.
Variable indeterminate : nat -> nat -> T.
Implicit Types (h : heap T) (a m : matrix) (vars : list matrix).

Lemma sound_frame h h' a :
  (forall b, _data a = Some b -> length <$> h' !! b = length <$> h !! b) ->
  sound h a -> sound h' a.
Proof.
  intros Hfr [Hr Ha]. split; [done|]. intros b Hb.
  destruct (Ha b Hb) as (buf & Hbuf & Hlen).
  specialize (Hfr b Hb). rewrite Hbuf in Hfr.
  destruct (h' !! b) as [buf'|]; simplify_eq/=.
  exists buf'. split; [done|]. lia.
Qed.

Lemma sound_block_live h a b :
  sound h a -> _data a = Some b -> is_Some (h !! b).
Proof. intros [_ Ha] Hb. destruct (Ha b Hb) as (buf & -> & _). by eexists. Qed.

Lemma sound_same h a a' :
  _rank a' = _rank a -> (_data a' = _data a \/ _data a' = None) ->
  sound h a -> sound h a'.
Proof.
  intros Hr Hd [Hrank Ha]. unfold sound, holds_array, Matrix.rank, Matrix.size in *.
  rewrite Hr. split; [done|]. intros b Hb. apply Ha.
  destruct Hd as [<-|Hd]; [done|congruence].
Qed.

Lemma inv_frame vars h h' :
  (forall b, length <$> h' !! b = length <$> h !! b) ->
  invariant vars h -> invariant vars h'.
Proof.
  intros Hfr [Hs He]. split; [|done].
  intros i a Hi. apply (sound_frame h); [|by eapply Hs]. auto.
Qed.

Lemma inv_append vars h m :
  invariant vars h -> sound h m ->
  (forall b i a, _data m = Some b -> vars !! i = Some a ->
                 _data a <> Some b) ->
  invariant (vars ++ [m]) h.
Proof.
  intros [Hs He] Hm Hnew. split.
  - intros i a [Hi|[_ Hi]]%lookup_app_Some; [by eapply Hs|].
    apply list_lookup_singleton_Some in Hi as [_ <-]. done.
  - intros i j a a' b Hi Hj Ha Ha'.
    apply lookup_app_Some in Hi as [Hi|[Hil Hi]];
      apply lookup_app_Some in Hj as [Hj|[Hjl Hj]].
    + by eapply He.
    + apply list_lookup_singleton_Some in Hj as [_ <-].
      by destruct (Hnew b i a Ha' Hi).
    + apply list_lookup_singleton_Some in Hi as [_ <-].
      by destruct (Hnew b j a' Ha Hj).
    + apply list_lookup_singleton_Some in Hi as [Hi _].
      apply list_lookup_singleton_Some in Hj as [Hj _]. lia.
Qed.

Lemma inv_append_fresh vars h bd buf r :
  invariant vars h -> h !! bd = None ->
  0 <= r < 2 ^ 16 -> r = 0 \/ power_of_2 r ->
  Z.of_nat (length buf) = Matrix.size {| _rank := r; _data := Some bd |} ->
  invariant (vars ++ [{| _rank := r; _data := Some bd |}])
            (<[bd := buf]> h).
Proof.
  intros Hinv Hfresh Hr Hpow Hlen.
  assert (Hlive : forall i a, vars !! i = Some a -> _data a <> Some bd).
  { intros i a Hi Hd. destruct Hinv as [Hs _].
    destruct (sound_block_live h a bd (Hs i a Hi) Hd) as [? ?]. congruence. }
  apply inv_append.
  - destruct Hinv as [Hs He]. split; [|done].
    intros i a Hi. apply (sound_frame h); [|by eapply Hs].
    intros b Hb. rewrite lookup_insert_ne; [done|].
    intros <-. by eapply Hlive.
  - split; [done|]. intros b [= <-]. exists buf.
    split; [apply lookup_insert_eq|done].
  - intros b i a [= <-] Hi. by eapply Hlive.
Qed.

Lemma inv_move_construct vars h (a : nat) m :
  invariant vars h -> vars !! a = Some m ->
  invariant (<[a := (Matrix.move m).2]> vars ++ [(Matrix.move m).1]) h.
Proof.
  intros [Hs He] Ha.
  pose proof (lookup_lt_Some _ _ _ Ha) as Hlt.
  assert (Hold : forall i x b,
    (<[a := (Matrix.move m).2]> vars) !! i = Some x -> _data x = Some b ->
    i <> a /\ vars !! i = Some x).
  { intros i x b Hi Hx. destruct (decide (i = a)) as [->|Hne].
    - rewrite list_lookup_insert_eq in Hi by done. by simplify_eq.
    - rewrite list_lookup_insert_ne in Hi by done. done. }
  apply inv_append.
  - split.
    + intros i x Hi. destruct (decide (i = a)) as [->|Hne].
      * rewrite list_lookup_insert_eq in Hi by done. simplify_eq.
        apply (sound_same h m); [done|by right|by eapply Hs].
      * rewrite list_lookup_insert_ne in Hi by done. by eapply Hs.
    + intros i j x x' b Hi Hj Hx Hx'.
      destruct (Hold i x b Hi Hx) as [_ Hi'].
      destruct (Hold j x' b Hj Hx') as [_ Hj']. by eapply He.
  - apply (sound_same h m); [done|by left|by eapply Hs].
  - intros b i x Hb Hi Hx. simpl in Hb.
    destruct (Hold i x b Hi Hx) as [Hne Hi'].
    apply Hne. by eapply He.
Qed.

Lemma inv_move_assign vars h (a b : nat) ma mb :
  a <> b -> invariant vars h ->
  vars !! a = Some ma -> vars !! b = Some mb ->
  invariant
    (<[b := {| _rank := _rank ma; _data := _data ma |}]>
       (<[a := {| _rank := _rank ma; _data := None |}]> vars))
    (match _data mb with Some old => delete old h | None => h end).
Proof.
  intros Hab [Hs He] Ha Hb.
  pose proof (lookup_lt_Some _ _ _ Ha) as Hla.
  pose proof (lookup_lt_Some _ _ _ Hb) as Hlb.
  set (h' := match _data mb with Some old => delete old h | None => h end).
  (* every array but the one [b] held is as before *)
  assert (Hkeep : forall i x blk, i <> b -> vars !! i = Some x ->
                    _data x = Some blk -> h' !! blk = h !! blk).
  { intros i x blk Hib Hi Hx. subst h'.
    destruct (_data mb) as [old|] eqn:Hold; [|done].
    apply lookup_delete_ne. intros <-. apply Hib. by eapply He. }
  (* where the array of a variable comes from *)
  assert (Horigin : forall i x blk,
    (<[b := {| _rank := _rank ma; _data := _data ma |}]>
       (<[a := {| _rank := _rank ma; _data := None |}]> vars)) !! i = Some x ->
    _data x = Some blk ->
    i <> a /\
    exists y, vars !! (if decide (i = b) then a else i) = Some y /\
              _data y = Some blk).
  { intros i x blk Hi Hx. destruct (decide (i = b)) as [->|Hib].
    - rewrite list_lookup_insert_eq in Hi by (by rewrite length_insert).
      simplify_eq. split; [done|]. by exists ma.
    - rewrite list_lookup_insert_ne in Hi by done.
      destruct (decide (i = a)) as [->|Hia].
      + rewrite list_lookup_insert_eq in Hi by done. by simplify_eq.
      + rewrite list_lookup_insert_ne in Hi by done. split; [done|].
        by exists x. }
  split.
  - intros i x Hi. destruct (decide (i = b)) as [->|Hib].
    + rewrite list_lookup_insert_eq in Hi by (by rewrite length_insert).
      simplify_eq.
      apply (sound_frame h).
      * intros blk Hblk. simpl in Hblk. f_equal. by eapply (Hkeep a).
      * apply (sound_same h ma); [done|by left|by eapply Hs].
    + rewrite list_lookup_insert_ne in Hi by done.
      destruct (decide (i = a)) as [->|Hia].
      * rewrite list_lookup_insert_eq in Hi by done. simplify_eq.
        split; [by apply (Hs a ma)|]. intros blk [=].
      * rewrite list_lookup_insert_ne in Hi by done.
        apply (sound_frame h); [|by eapply Hs].
        intros blk Hblk. f_equal. by eapply (Hkeep i).
  - intros i j x x' blk Hi Hj Hx Hx'.
    destruct (Horigin i x blk Hi Hx) as (Hia & y & Hy & Hyb).
    destruct (Horigin j x' blk Hj Hx') as (Hja & y' & Hy' & Hyb').
    pose proof (He _ _ _ _ _ Hy Hy' Hyb Hyb') as Heq.
    destruct (decide (i = b)), (decide (j = b)); congruence.
Qed.

Lemma lookup_var_inv vars (a : nat) h m h' :
  Client.lookup_var vars a h = Ok m h' -> vars !! a = Some m /\ h' = h.
Proof.
  unfold Client.lookup_var. destruct (vars !! a); [|done].
  by intros [= -> ->].
Qed.

Lemma step_invariant s vars h vars' h' :
  small_rank s -> invariant vars h ->
  Client.step indeterminate s vars h = Ok vars' h' ->
  invariant vars' h'.
Proof.
  intros Hsmall Hinv.
  destruct s as [|r|a i j v|a|a|b a]; cbn [Client.step];
    unfold mbind, M_bind.
  - (* matrix<T> m; *)
    intros [= <- <-]. apply inv_append; [done| |done].
    split; [|done]. simpl. split; [lia|by left].
  - (* matrix<T> m(r); *)
    simpl in Hsmall.
    destruct (Matrix.of_rank indeterminate r h) as [m h1| | | |] eqn:Hnew;
      try done.
    intros [= <- <-].
    apply of_rank_inv in Hnew as (Hpow & -> & ->); [|lia].
    apply inv_append_fresh; try done; [apply fresh_block|].
    rewrite length_fmap, length_seq, size_eq by (simpl; lia). simpl.
    unfold wrap32. rewrite Z.mod_small by nia. nia.
  - (* a(i,j) = v; *)
    destruct (Client.lookup_var vars a h) as [m h1| | | |] eqn:Hm; try done.
    apply lookup_var_inv in Hm as [Hm ->].
    destruct (Matrix.put m i j v h) as [u h1| | | |] eqn:Hput; try done.
    intros [= <- <-].
    apply store_inv in Hput as (b & buf & _ & Hb & _ & ->).
    apply (inv_frame vars h); [|done].
    intros b'. destruct (decide (b' = b)) as [->|Hne].
    + rewrite lookup_insert_eq, Hb. simpl. by rewrite length_insert.
    + by rewrite lookup_insert_ne.
  - (* auto m = a.duplicate(); *)
    destruct (Client.lookup_var vars a h) as [m h1| | | |] eqn:Hm; try done.
    apply lookup_var_inv in Hm as [Hm ->].
    rewrite duplicate_eq.
    by destruct (Z.land (_rank m) (wrap32 (_rank m - 1)) =? 0).
  - (* matrix<T> m(std::move(a)); *)
    destruct (Client.lookup_var vars a h) as [m h1| | | |] eqn:Hm; try done.
    apply lookup_var_inv in Hm as [Hm ->].
    intros [= <- <-]. by apply inv_move_construct.
  - (* b = std::move(a); *)
    destruct (Client.lookup_var vars b h) as [mb h1| | | |] eqn:Hmb; try done.
    apply lookup_var_inv in Hmb as [Hmb ->].
    destruct (Client.lookup_var vars a h) as [ma h1| | | |] eqn:Hma; try done.
    apply lookup_var_inv in Hma as [Hma ->].
    destruct (decide (a = b)) as [->|Hab]; [by intros [= <- <-]|].
    pose proof (inv_move_assign vars h a b ma mb Hab Hinv Hma Hmb) as Hinv'.
    unfold Matrix.operator_move_assign, mbind, M_bind.
    destruct (_data mb) as [old|] eqn:Hold.
    + destruct Hinv as [Hs _].
      destruct (sound_block_live h mb old (Hs b mb Hmb) Hold) as [buf Hbuf].
      unfold delete_array. rewrite Hbuf. by intros [= <- <-].
    + by intros [= <- <-].
Qed.

Lemma exec_invariant prog : forall vars h vars' h',
  Forall small_rank prog -> invariant vars h ->
  Client.exec indeterminate prog vars h = Ok vars' h' ->
  invariant vars' h'.
Proof.
  induction prog as [|s prog IH]; intros vars h vars' h' Hsmall Hinv.
  - by intros [= <- <-].
  - apply Forall_cons in Hsmall as [Hs Hsmall].
    cbn [Client.exec]. unfold mbind, M_bind.
    destruct (Client.step indeterminate s vars h) as [vars1 h1| | | |] eqn:Hstep;
      try done.
    apply IH; [done|]. by eapply step_invariant.
Qed.

Lemma invariant_initial : invariant [] (∅ : heap T).
Proof. split; [by intros i a Hi|by intros i j a a' b Hi]. Qed.





End Invariant.




(** ** Further properties of the code *)

(** *** Empty matrices *)

Lemma size_0_iff (a : matrix) :
  0 <= _rank a < 2 ^ 32 -> Matrix.size a = 0 <-> _rank a = 0.
Proof. intros Hr. rewrite size_eq by done. nia. Qed.

Lemma end_defined {T : Type} (a : matrix) (h : heap T) :
  0 <= _rank a < 2 ^ 32 ->
  owns h a \/ (_rank a = 0 /\ _data a = None) ->
  Matrix.end_ a h
  = Ok (Iterator.make (Matrix.data a) (Ptr (_data a) (Matrix.size a))) h.
Proof.
  intros Hr [(b & buf & Hd & Hb & Hlen)|[Hr0 Hd]].
  - rewrite (end_owns h a b buf) by done. unfold Matrix.data. by rewrite Hd.
  - rewrite end_null by done. apply (size_0_iff a Hr) in Hr0.
    unfold Matrix.data. by rewrite Hr0, Hd.
Qed.

(** X1.  For a matrix of rank below [2^16] that holds its array, and for
    the default-constructed one, [begin() == end()] exactly when the rank
    is 0, which is exactly when [size()] is 0; the loop from [begin()] to
    [end()] over a matrix of rank 0 visits nothing, whether its array is
    null (default construction) or empty (construction with rank 0). *)
Theorem begin_is_end_iff_rank_0 {T : Type} (a : matrix) (h : heap T) :
  0 <= Matrix.rank a < 2 ^ 16 ->
  owns h a \/ (Matrix.rank a = 0 /\ _data a = None) ->
  exists last,
    Matrix.end_ a h = Ok last h /\
    (Iterator.operator_eq (Matrix.begin_ a) last = true
     <-> Matrix.rank a = 0) /\
    (Matrix.size a = 0 <-> Matrix.rank a = 0) /\
    (Matrix.rank a = 0 -> forall fuel, Client.traverse fuel a h = Ok [] h).
Proof.
  intros Hr Hlive. unfold Matrix.rank in *.
  assert (Hr32 : 0 <= _rank a < 2 ^ 32) by lia.
  pose proof (size_0_iff a Hr32) as Hsz.
  pose proof (end_defined a h Hr32 Hlive) as Hend.
  eexists. split; [exact Hend|].
  assert (Heq : Iterator.operator_eq (Matrix.begin_ a)
                  (Iterator.make (Matrix.data a)
                                 (Ptr (_data a) (Matrix.size a))) = true
                <-> Matrix.size a = 0).
  { unfold Iterator.operator_eq, Matrix.begin_, Matrix.data. simpl.
    rewrite bool_decide_eq_true. split.
    - by intros [= <-].
    - by intros ->. }
  split_and!; [by rewrite Heq|done|].
  intros Hr0 fuel. unfold Client.traverse, mbind, M_bind. rewrite Hend.
  apply Hsz, Heq in Hr0.
  destruct fuel; simpl; unfold Iterator.operator_ne; by rewrite Hr0.
Qed.

Lemma begin_is_end_iff_rank_0_witness :
  let a := {| _rank := 2; _data := Some 0%nat |} in
  let h : heap Z := {[ 0%nat := [10; 11; 12; 13] ]} in
  (0 <= Matrix.rank a < 2 ^ 16 /\
   (owns h a \/ (Matrix.rank a = 0 /\ _data a = None)) /\
   0 <= Matrix.rank Matrix.default < 2 ^ 16 /\
   (owns h Matrix.default \/
    (Matrix.rank Matrix.default = 0 /\ _data Matrix.default = None))) /\
  (exists last, Matrix.end_ a h = Ok last h /\
                Iterator.operator_eq (Matrix.begin_ a) last <> true) /\
  Client.traverse 0 Matrix.default h = Ok [] h.
Proof.
  intros a h.
  assert (Hown : owns h a \/ (Matrix.rank a = 0 /\ _data a = None)).
  { left. exists 0%nat, [10; 11; 12; 13]. split_and!; reflexivity. }
  assert (Hdef : owns h Matrix.default \/
                 (Matrix.rank Matrix.default = 0 /\ _data Matrix.default = None)).
  { right. split; reflexivity. }
  split; [split_and!; try done; simpl; lia|]. split.
  - destruct (begin_is_end_iff_rank_0 a h ltac:(simpl; lia) Hown)
      as (last & Hend & Hiff & _).
    exists last. split; [exact Hend|]. intros Heq. apply Hiff in Heq.
    discriminate Heq.
  - destruct (begin_is_end_iff_rank_0 Matrix.default h ltac:(simpl; lia) Hdef)
      as (last & _ & _ & _ & Hloop).
    apply Hloop. reflexivity.
Defined.

(** *** The array the constructor allocates *)

Lemma wrap32_square_pow2 k :
  0 <= k ->
  wrap32 (2 ^ k * 2 ^ k) = if k <? 16 then 2 ^ k * 2 ^ k else 0.
Proof.
  intros Hk. unfold wrap32. rewrite pow2_square by done.
  destruct (Z.ltb_spec k 16) as [Hlt|Hge].
  - apply Z.mod_small. split; [apply Z.pow_nonneg; lia|].
    apply Z.pow_lt_mono_r; lia.
  - replace (2 * k) with (2 * k - 32 + 32) by lia.
    rewrite Z.pow_add_r by lia. apply Z_mod_mult.
Qed.

(** X2.  For every 32-bit rank the constructor accepts, [size()] is the
    exact square [r*r], while the array allocated has [r*r] modulo [2^32]
    elements: as many as [size()] says exactly when [r < 2^16], and none at
    all for the powers of 2 from [2^16] on. *)
Theorem constructed_array_length
    {T : Type} (indeterminate : nat -> nat -> T) (r : Z) (h : heap T) :
  0 <= r < 2 ^ 32 -> r = 0 \/ power_of_2 r ->
  exists a h' b buf,
    Matrix.of_rank indeterminate r h = Ok a h' /\
    _data a = Some b /\ h' !! b = Some buf /\
    Matrix.size a = r * r /\
    Z.of_nat (length buf) = wrap32 (r * r) /\
    (Z.of_nat (length buf) = Matrix.size a <-> r < 2 ^ 16) /\
    (2 ^ 16 <= r -> buf = []).
Proof.
  intros Hr Hpow.
  eexists _, _, _, _. split; [by apply of_rank_returns|].
  split; [done|]. split; [apply lookup_insert_eq|].
  rewrite size_eq by done. simpl _rank.
  rewrite length_fmap, length_seq.
  assert (Hw : 0 <= wrap32 (r * r)) by (apply Z.mod_pos_bound; lia).
  rewrite Z2Nat.id by done.
  assert (Hcases : (r < 2 ^ 16 /\ wrap32 (r * r) = r * r) \/
                   (2 ^ 16 <= r /\ wrap32 (r * r) = 0)).
  { destruct Hpow as [->|(k & Hk & ->)]; [left; split; [lia|done]|].
    rewrite wrap32_square_pow2 by done.
    destruct (Z.ltb_spec k 16) as [Hlt|Hge].
    - left. split; [|done]. apply Z.pow_lt_mono_r; lia.
    - right. split; [|done]. apply Z.pow_le_mono_r; lia. }
  split_and!; try done.
  - destruct Hcases as [[? ->]|[? ->]]; [done|]. split; [nia|lia].
  - intros Hbig. destruct Hcases as [[? _]|[_ ->]]; [lia|]. done.
Qed.

Lemma constructed_array_length_witness :
  (0 <= 4 < 2 ^ 32 /\ (4 = 0 \/ power_of_2 4)) /\
  exists a h' b buf,
    Matrix.of_rank zeros 4 ∅ = Ok a h' /\
    _data a = Some b /\ h' !! b = Some buf /\ Z.of_nat (length buf) = 16.
Proof.
  assert (Hpow : 4 = 0 \/ power_of_2 4).
  { right. exists 2. split; [lia|reflexivity]. }
  split; [split; [lia|exact Hpow]|].
  destruct (constructed_array_length zeros 4 ∅ ltac:(lia) Hpow)
    as (a & h' & b & buf & Hnew & Hd & Hbuf & _ & Hlen & _).
  exists a, h', b, buf. split_and!; assumption.
Defined.

(** *** Iterators and the accessor *)



(** *** Moves composed *)

(** X7.  Exchanging two distinct matrices by three moves, as [std::swap]
    does, exchanges their ranks and their arrays: no element is read or
    written, no array is allocated or freed, and the temporary ends without
    an array. *)
Theorem swap_exchanges_matrices {T : Type} (a b : matrix) (h : heap T) :
  swap a b h = Ok (b, a) h.
Proof.
  destruct a as [ra da], b as [rb db].
  unfold swap, Matrix.operator_move_assign, Matrix.move, mbind, M_bind, mret,
    M_ret. simpl. done.
Qed.

(** *** What a move assignment frees *)

(** X8.  Move assignment to a matrix that holds an array deletes that
    array and nothing else: every other array is as before, and a pointer
    or iterator into the deleted array can no longer be read or written
    through. *)
Theorem move_assign_frees_old_array
    {T : Type} (this a : matrix) (h : heap T) (old : nat) :
  _data this = Some old -> is_Some (h !! old) -> _data a <> Some old ->
  exists h',
    Matrix.operator_move_assign this a h
      = Ok ({| _rank := _rank a; _data := _data a |},
            {| _rank := _rank a; _data := None |}) h' /\
    h' !! old = None /\
    (forall blk, blk <> old -> h' !! blk = h !! blk) /\
    (forall (it : matrix_iterator) (v : T),
       blk_of (_ptr it) = Some old ->
       load (Iterator.operator_deref it) h' = Undefined /\
       store (Iterator.operator_deref it) v h' = Undefined).
Proof.
  intros Hold [buf Hbuf] Hne. exists (delete old h). split_and!.
  - unfold Matrix.operator_move_assign, mbind, M_bind, delete_array.
    by rewrite Hold, Hbuf.
  - apply lookup_delete_eq.
  - intros blk Hblk. by apply lookup_delete_ne.
  - intros it v Hit. unfold Iterator.operator_deref, load, store, peek.
    rewrite Hit, lookup_delete_eq. done.
Qed.

Lemma move_assign_frees_old_array_witness :
  let a := {| _rank := 2; _data := Some 0%nat |} in
  let this := {| _rank := 1; _data := Some 1%nat |} in
  let h : heap Z := {[ 0%nat := [10; 11; 12; 13]; 1%nat := [7] ]} in
  (_data this = Some 1%nat /\ is_Some (h !! 1%nat) /\ _data a <> Some 1%nat) /\
  exists h',
    load (Iterator.operator_deref (Matrix.begin_ this)) h = Ok 7 h /\
    (Matrix.operator_move_assign this a h
     = Ok ({| _rank := 2; _data := Some 0%nat |},
           {| _rank := 2; _data := None |}) h') /\
    load (Iterator.operator_deref (Matrix.begin_ this)) h' = Undefined.
Proof.
  intros a this h.
  assert (Hlive : is_Some (h !! 1%nat)) by (by exists [7]).
  assert (Hne : _data a <> Some 1%nat) by discriminate.
  split; [split_and!; [reflexivity|exact Hlive|exact Hne]|].
  destruct (move_assign_frees_old_array this a h 1 eq_refl Hlive Hne)
    as (h' & Hmv & _ & _ & Hstale).
  exists h'. split; [vm_compute; reflexivity|]. split; [exact Hmv|].
  apply (Hstale (Matrix.begin_ this) 0). reflexivity.
Defined.

(** *** Live arrays and their holders *)

Section NoGarbage.
Context {T : Type}.
Variable indeterminate : nat -> nat -> T.
Implicit Types (h : heap T) (vars : list matrix).

Lemma no_garbage_append vars h m :
  no_garbage vars h -> no_garbage (vars ++ [m]) h.
Proof.
  intros Hg b Hb. destruct (Hg b Hb) as (i & a & Hi & Ha).
  exists i, a. split; [by apply lookup_app_l_Some|done].
Qed.

Lemma no_garbage_append_fresh vars h bd buf r :
  no_garbage vars h ->
  no_garbage (vars ++ [{| _rank := r; _data := Some bd |}]) (<[bd := buf]> h).
Proof.
  intros Hg b Hb. destruct (decide (b = bd)) as [->|Hne].
  - exists (length vars), {| _rank := r; _data := Some bd |}.
    split; [by apply list_lookup_middle|done].
  - rewrite lookup_insert_ne in Hb by done.
    destruct (Hg b Hb) as (i & a & Hi & Ha).
    exists i, a. split; [by apply lookup_app_l_Some|done].
Qed.

Lemma no_garbage_move_construct vars h (a : nat) m :
  vars !! a = Some m -> no_garbage vars h ->
  no_garbage (<[a := (Matrix.move m).2]> vars ++ [(Matrix.move m).1]) h.
Proof.
  intros Ha Hg b Hb. destruct (Hg b Hb) as (i & x & Hi & Hx).
  destruct (decide (i = a)) as [->|Hne].
  - exists (length (<[a := (Matrix.move m).2]> vars)), (Matrix.move m).1.
    split; [by apply list_lookup_middle|]. simpl. congruence.
  - exists i, x. split; [|done]. apply lookup_app_l_Some.
    by rewrite list_lookup_insert_ne.
Qed.

Lemma no_garbage_move_assign vars h (a b : nat) ma mb :
  a <> b -> vars !! a = Some ma -> vars !! b = Some mb ->
  no_garbage vars h ->
  no_garbage
    (<[b := {| _rank := _rank ma; _data := _data ma |}]>
       (<[a := {| _rank := _rank ma; _data := None |}]> vars))
    (match _data mb with Some old => delete old h | None => h end).
Proof.
  intros Hab Ha Hb Hg blk Hblk.
  pose proof (lookup_lt_Some _ _ _ Hb) as Hlb.
  assert (Hlive : is_Some (h !! blk) /\ _data mb <> Some blk).
  { destruct (_data mb) as [old|]; [|done].
    destruct (decide (blk = old)) as [->|Hne].
    - rewrite lookup_delete_eq in Hblk. by destruct Hblk.
    - rewrite lookup_delete_ne in Hblk by done. split; [done|congruence]. }
  destruct Hlive as [Hlive Hnb].
  destruct (Hg blk Hlive) as (i & x & Hi & Hx).
  destruct (decide (i = b)) as [->|Hib]; [congruence|].
  destruct (decide (i = a)) as [->|Hia].
  - exists b, {| _rank := _rank ma; _data := _data ma |}.
    split; [|simpl; congruence].
    apply list_lookup_insert_eq. by rewrite length_insert.
  - exists i, x. split; [|done].
    by rewrite !list_lookup_insert_ne.
Qed.

Lemma step_no_garbage s vars h vars' h' :
  small_rank s -> invariant vars h -> no_garbage vars h ->
  Client.step indeterminate s vars h = Ok vars' h' ->
  no_garbage vars' h'.
Proof.
  intros Hsmall Hinv Hg.
  destruct s as [|r|a i j v|a|a|b a]; cbn [Client.step];
    unfold mbind, M_bind.
  - intros [= <- <-]. by apply no_garbage_append.
  - simpl in Hsmall.
    destruct (Matrix.of_rank indeterminate r h) as [m h1| | | |] eqn:Hnew;
      try done.
    intros [= <- <-].
    apply of_rank_inv in Hnew as (_ & -> & ->); [|lia].
    by apply no_garbage_append_fresh.
  - destruct (Client.lookup_var vars a h) as [m h1| | | |] eqn:Hm; try done.
    apply lookup_var_inv in Hm as [Hm ->].
    destruct (Matrix.put m i j v h) as [u h1| | | |] eqn:Hput; try done.
    intros [= <- <-].
    apply store_inv in Hput as (b & buf & _ & Hb & _ & ->).
    intros b' Hb'. apply Hg. destruct (decide (b' = b)) as [->|Hne].
    + by rewrite Hb.
    + by rewrite lookup_insert_ne in Hb'.
  - destruct (Client.lookup_var vars a h) as [m h1| | | |] eqn:Hm; try done.
    apply lookup_var_inv in Hm as [Hm ->].
    rewrite duplicate_eq.
    by destruct (Z.land (_rank m) (wrap32 (_rank m - 1)) =? 0).
  - destruct (Client.lookup_var vars a h) as [m h1| | | |] eqn:Hm; try done.
    apply lookup_var_inv in Hm as [Hm ->].
    intros [= <- <-]. by apply no_garbage_move_construct.
  - destruct (Client.lookup_var vars b h) as [mb h1| | | |] eqn:Hmb; try done.
    apply lookup_var_inv in Hmb as [Hmb ->].
    destruct (Client.lookup_var vars a h) as [ma h1| | | |] eqn:Hma; try done.
    apply lookup_var_inv in Hma as [Hma ->].
    destruct (decide (a = b)) as [->|Hab]; [by intros [= <- <-]|].
    pose proof (no_garbage_move_assign vars h a b ma mb Hab Hma Hmb Hg) as Hg'.
    unfold Matrix.operator_move_assign, mbind, M_bind.
    destruct (_data mb) as [old|] eqn:Hold.
    + destruct Hinv as [Hs _].
      destruct (sound_block_live h mb old (Hs b mb Hmb) Hold) as [buf Hbuf].
      unfold delete_array. rewrite Hbuf. by intros [= <- <-].
    + by intros [= <- <-].
Qed.

Lemma exec_no_garbage prog : forall vars h vars' h',
  Forall small_rank prog -> invariant vars h -> no_garbage vars h ->
  Client.exec indeterminate prog vars h = Ok vars' h' ->
  no_garbage vars' h'.
Proof.
  induction prog as [|s prog IH]; intros vars h vars' h' Hsmall Hinv Hg.
  - by intros [= <- <-].
  - apply Forall_cons in Hsmall as [Hs Hsmall].
    cbn [Client.exec]. unfold mbind, M_bind.
    destruct (Client.step indeterminate s vars h) as [vars1 h1| | | |] eqn:Hstep;
      try done.
    apply IH; [done|by eapply step_invariant|by eapply step_no_garbage].
Qed.
End NoGarbage.

(** X9.  After any sequence of constructions (sized ones with a rank below
    [2^16]), element writes, duplications and moves that runs to completion,
    the live arrays are exactly those held by the matrices: construction
    and duplication allocate one array for the new matrix, move assignment
    deletes the array its target held, and nothing else allocates or frees,
    so no array is leaked while its matrix is in scope and none is freed
    while a matrix holds it. *)
Theorem live_arrays_are_the_held_ones
    {T : Type} (indeterminate : nat -> nat -> T)
    (prog : list Client.statement) (vars : list matrix) (h : heap T) :
  Forall small_rank prog ->
  Client.exec indeterminate prog [] ∅ = Ok vars h ->
  forall b, is_Some (h !! b) <-> exists a, a ∈ vars /\ _data a = Some b.
Proof.
  intros Hsmall Hexec b. split.
  - intros Hb.
    destruct (exec_no_garbage indeterminate prog [] ∅ vars h Hsmall
                invariant_initial) with (b := b) as (i & a & Hi & Ha);
      [|done..|].
    { intros b' Hb'. rewrite lookup_empty in Hb'. by destruct Hb'. }
    exists a. split; [|done]. apply list_elem_of_lookup. by exists i.
  - intros (a & (i & Hi)%list_elem_of_lookup & Ha).
    destruct (exec_invariant indeterminate prog [] ∅ vars h Hsmall
                invariant_initial Hexec) as [Hs _].
    by apply (sound_block_live h a b (Hs i a Hi)).
Qed.

Lemma live_arrays_are_the_held_ones_witness :
  let prog : list (Client.statement (T := Z)) :=
    [Client.Construct 2; Client.Construct 2; Client.Construct 1;
     Client.MoveAssign 1 2] in
  let vars :=
    [{| _rank := 2; _data := Some 0%nat |};
     {| _rank := 1; _data := Some 2%nat |};
     {| _rank := 1; _data := None |}] in
  let h : heap Z := {[ 0%nat := [0; 0; 0; 0]; 2%nat := [0] ]} in
  (Forall small_rank prog /\
   Client.exec zeros prog [] ∅ = Ok vars h) /\
  h !! 1%nat = None /\
  forall b, is_Some (h !! b) <-> exists a, a ∈ vars /\ _data a = Some b.
Proof.
  intros prog vars h.
  assert (Hsmall : Forall small_rank prog).
  { repeat constructor; simpl; lia. }
  assert (Hexec : Client.exec zeros prog [] ∅ = Ok vars h).
  { vm_compute. reflexivity. }
  split; [split; assumption|]. split; [reflexivity|].
  exact (live_arrays_are_the_held_ones zeros prog vars h Hsmall Hexec).
Defined.

(** *** Traversal from the end *)

Lemma operator_ne_offsets_back b s s' o n :
  Iterator.operator_ne (Iterator.make (Ptr b s) (Ptr b (o + n)))
                       (Iterator.make (Ptr b s') (Ptr b o))
  = negb (n =? 0).
Proof.
  unfold Iterator.operator_ne, Iterator.operator_eq. simpl. f_equal.
  destruct (Z.eqb_spec n 0) as [->|Hn].
  - rewrite Z.add_0_r. by apply bool_decide_eq_true.
  - apply bool_decide_eq_false. intros [=]. lia.
Qed.

Lemma coordinates_backward_spec b s s' (n : nat) : forall fuel o,
  (n <= fuel)%nat ->
  coordinates_backward fuel
    (Iterator.make (Ptr b s) (Ptr b (o + Z.of_nat n)))
    (Iterator.make (Ptr b s') (Ptr b o))
  = Some (reverse ((fun z => decode (z - s)) <$> seqZ o (Z.of_nat n))).
Proof.
  induction n as [|n IH]; intros fuel o Hfuel.
  - destruct fuel; simpl; by rewrite operator_ne_offsets_back.
  - destruct fuel as [|fuel]; [lia|].
    cbn [coordinates_backward]. rewrite operator_ne_offsets_back.
    destruct (Z.eqb_spec (Z.of_nat (S n)) 0); [lia|].
    change (negb false) with true. cbv iota zeta.
    change (Iterator.operator_dec
              (Iterator.make (Ptr b s) (Ptr b (o + Z.of_nat (S n))))).1
      with (Iterator.make (Ptr b s) (Ptr b (o + Z.of_nat (S n) + -1))).
    replace (o + Z.of_nat (S n) + -1) with (o + Z.of_nat n) by lia.
    rewrite (IH fuel o) by lia.
    replace (Z.of_nat (S n)) with (Z.of_nat n + 1) by lia.
    rewrite seqZ_app by lia. change (seqZ (o + Z.of_nat n) 1)
      with [o + Z.of_nat n].
    rewrite fmap_app, list_fmap_singleton, reverse_snoc. simpl.
    rewrite iterator_coordinates. unfold ptr_diff. simpl. done.
Qed.

Lemma pack_ones k :
  0 <= k <= 32 -> Bits.pack (Z.ones (2 * k)) = Z.ones k.
Proof.
  intros Hk. apply Z.bits_inj'. intros i Hi.
  rewrite testbit_pack, !Z.testbit_ones_nonneg by lia.
  destruct (Z.ltb_spec i 32), (Z.ltb_spec (2 * i) (2 * k)),
    (Z.ltb_spec i k); simpl; done || lia.
Qed.

Lemma pack_shiftr_ones k :
  0 <= k <= 32 -> Bits.pack (Z.shiftr (Z.ones (2 * k)) 1) = Z.ones k.
Proof.
  intros Hk. apply Z.bits_inj'. intros i Hi.
  rewrite testbit_pack, Z.shiftr_spec, !Z.testbit_ones_nonneg by lia.
  destruct (Z.ltb_spec i 32), (Z.ltb_spec (2 * i + 1) (2 * k)),
    (Z.ltb_spec i k); simpl; done || lia.
Qed.

Lemma decode_last k :
  0 <= k <= 32 -> decode (2 ^ (2 * k) - 1) = (2 ^ k - 1, 2 ^ k - 1).
Proof.
  intros Hk. unfold decode.
  rewrite !Z.sub_1_r, <- !Z.ones_equiv.
  by rewrite pack_ones, pack_shiftr_ones.
Qed.

Lemma decode_first : decode 0 = (0, 0).
Proof. by vm_compute. Qed.

(** X10.  The iterator is bidirectional over the whole matrix: for a
    matrix of rank [r = 2^k] below [2^16] that holds its array, stepping
    with [--] from [end()] until [begin()] is reached stops after [r*r]
    steps and sees the coordinate pairs of the forward traversal in reverse
    order; the forward traversal starts at [(0,0)] and the backward one at
    [(r-1,r-1)]. *)
Theorem backward_traversal_reverses
    {T : Type} (a : matrix) (k : Z) (h : heap T) :
  0 <= k < 16 -> Matrix.rank a = 2 ^ k -> owns h a ->
  let r := 2 ^ k in
  exists (last : matrix_iterator) (visited : list (Z * Z)),
    Matrix.end_ a h = Ok last h /\
    (forall fuel, (Z.to_nat (Matrix.size a) <= fuel)%nat ->
       Client.coordinates fuel (Matrix.begin_ a) last = Some visited) /\
    (forall fuel, (Z.to_nat (Matrix.size a) <= fuel)%nat ->
       coordinates_backward fuel last (Matrix.begin_ a)
       = Some (reverse visited)) /\
    Z.of_nat (length visited) = r * r /\
    head visited = Some (0, 0) /\
    head (reverse visited) = Some (r - 1, r - 1).
Proof.
  intros Hk Hr (b & buf & Hd & Hb & Hlen) r.
  assert (Hk31 : 0 <= k <= 31) by lia.
  pose proof (size_pow2 a k Hk31 Hr) as Hsz.
  assert (Hpos : 0 < 2 ^ (2 * k)) by (apply Z.pow_pos_nonneg; lia).
  exists (Iterator.make (Ptr (Some b) 0) (Ptr (Some b) (Matrix.size a))),
         (decode <$> seqZ 0 (2 ^ (2 * k))).
  assert (Hmap : (fun z => decode (z - 0)) <$> seqZ 0 (2 ^ (2 * k))
                 = decode <$> seqZ 0 (2 ^ (2 * k))).
  { apply list_fmap_ext. intros _ z _. by rewrite Z.sub_0_r. }
  split_and!.
  - by apply (end_owns h a b buf).
  - intros fuel Hfuel. unfold Matrix.begin_, Matrix.data. rewrite Hd.
    rewrite <- (Z.add_0_l (Matrix.size a)).
    rewrite <- (Z2Nat.id (Matrix.size a)) by lia.
    rewrite coordinates_spec by done.
    by rewrite Z2Nat.id, Hsz, Hmap by lia.
  - intros fuel Hfuel. unfold Matrix.begin_, Matrix.data. rewrite Hd.
    rewrite <- (Z.add_0_l (Matrix.size a)).
    rewrite <- (Z2Nat.id (Matrix.size a)) by lia.
    rewrite coordinates_backward_spec by done.
    by rewrite Z2Nat.id, Hsz, Hmap by lia.
  - rewrite length_fmap, length_seqZ. unfold r.
    rewrite pow2_square by lia. lia.
  - rewrite seqZ_cons by lia. simpl. by rewrite decode_first.
  - rewrite head_reverse, fmap_last, last_lookup, length_seqZ.
    rewrite lookup_seqZ_lt by lia. simpl.
    replace (0 + Z.of_nat (Init.Nat.pred (Z.to_nat (2 ^ (2 * k)))))
      with (2 ^ (2 * k) - 1) by lia.
    rewrite decode_last by lia. done.
Qed.

Lemma backward_traversal_reverses_witness :
  let a := {| _rank := 2; _data := Some 0%nat |} in
  let h : heap Z := {[ 0%nat := [10; 11; 12; 13] ]} in
  (0 <= 1 < 16 /\ Matrix.rank a = 2 ^ 1 /\ owns h a) /\
  exists last,
    Matrix.end_ a h = Ok last h /\
    coordinates_backward 4 last (Matrix.begin_ a)
    = Some [(1, 1); (0, 1); (1, 0); (0, 0)].
Proof.
  intros a h.
  assert (Hown : owns h a).
  { exists 0%nat, [10; 11; 12; 13]. split_and!; reflexivity. }
  split; [split_and!; [lia|lia|reflexivity|exact Hown]|].
  destruct (backward_traversal_reverses a 1 h)
    as (last & visited & Hend & Hfwd & Hbwd & _); [lia|reflexivity|exact Hown|].
  exists last. split; [exact Hend|].
  rewrite Hbwd by (vm_compute; lia).
  specialize (Hfwd 4%nat ltac:(vm_compute; lia)).
  vm_compute in Hend. injection Hend as <-.
  vm_compute in Hfwd. injection Hfwd as <-. reflexivity.
Defined.

(** *** When a statement runs to completion *)

Section Defined.
Context {T : Type}.
Variable indeterminate : nat -> nat -> T.
Implicit Types (h : heap T) (vars : list matrix).

Lemma lookup_var_Some vars (a : nat) m h :
  vars !! a = Some m -> Client.lookup_var vars a h = Ok m h.
Proof. intros Ha. unfold Client.lookup_var. by rewrite Ha. Qed.

Lemma put_null m i j v h :
  _data m = None -> Matrix.put m i j v h = Undefined.
Proof.
  intros Hd. unfold Matrix.put, Matrix.operator_call, store. cbv zeta.
  by rewrite Hd.
Qed.

Lemma sound_rank_pow2 h m :
  sound h m -> 0 < _rank m -> exists k, 0 <= k < 16 /\ _rank m = 2 ^ k.
Proof.
  intros [[Hr Hpow] _] Hpos. unfold Matrix.rank in *.
  destruct Hpow as [?|Hpow]; [lia|].
  apply (power_of_2_below _ 16); [lia|done|lia].
Qed.

Lemma put_in_range m h i j v :
  sound h m -> _data m <> None ->
  0 <= i < Matrix.rank m -> 0 <= j < Matrix.rank m ->
  exists h', Matrix.put m i j v h = Ok tt h'.
Proof.
  intros Hs Hd Hi Hj. unfold Matrix.rank in *.
  destruct (sound_rank_pow2 h m Hs ltac:(lia)) as (k & Hk & Hrk).
  destruct (_data m) as [b|] eqn:Hb; [|done].
  destruct Hs as [_ Harr]. destruct (Harr b Hb) as (buf & Hbuf & Hlen).
  rewrite (size_pow2 m k) in Hlen by (lia || done).
  assert (0 <= Bits.encode i j < 2 ^ (2 * k)) by (apply encode_bound; lia).
  eexists. unfold Matrix.put, Matrix.operator_call. cbv zeta. rewrite Hb.
  apply (store_ok h b buf); [done|lia].
Qed.

Lemma step_well_defined s vars h :
  invariant vars h -> small_rank s -> well_defined vars s ->
  exists vars' h', Client.step indeterminate s vars h = Ok vars' h'.
Proof.
  intros [Hs He] Hsmall Hwd.
  destruct s as [|r|a i j v|a|a|b a]; cbn [Client.step];
    unfold mbind, M_bind; simpl in Hwd, Hsmall.
  - by eexists _, _.
  - rewrite of_rank_returns by (lia || done). by eexists _, _.
  - destruct Hwd as (m & Hm & Hd & Hi & Hj).
    rewrite (lookup_var_Some vars a m) by done.
    destruct (put_in_range m h i j v) as (h' & ->); [by eapply Hs|done..|].
    by eexists _, _.
  - done.
  - destruct Hwd as [m Hm]. rewrite (lookup_var_Some vars a m) by done.
    by eexists _, _.
  - destruct Hwd as [[ma Hma] [mb Hmb]].
    rewrite (lookup_var_Some vars b mb), (lookup_var_Some vars a ma) by done.
    destruct (decide (a = b)); [by eexists _, _|].
    unfold Matrix.operator_move_assign, mbind, M_bind.
    destruct (_data mb) as [old|] eqn:Hold; [|by eexists _, _].
    destruct (sound_block_live h mb old (Hs b mb Hmb) Hold) as [buf Hbuf].
    unfold delete_array. rewrite Hbuf. by eexists _, _.
Qed.

Lemma step_duplicate_not_ok vars (a : nat) h vars' h' :
  Client.step indeterminate (Client.Duplicate a) vars h <> Ok vars' h'.
Proof.
  cbn [Client.step]. unfold mbind, M_bind.
  destruct (Client.lookup_var vars a h) as [m h1| | | |]; try done.
  rewrite duplicate_eq.
  by destruct (Z.land (_rank m) (wrap32 (_rank m - 1)) =? 0).
Qed.
End Defined.

(** X11.  In a state reached by a program of the statements (sized
    constructions below [2^16]): a construction with a rank below [2^16]
    runs to completion if the rank is 0 or a power of 2 and stops on the
    assertion otherwise; a write with coordinates below the rank runs to
    completion if the matrix holds an array and is undefined behaviour, a
    write through a null pointer, if it does not; a move between declared
    matrices always runs to completion; and no statement that calls
    [duplicate()] does. *)
Theorem statement_runs_to_completion
    {T : Type} (indeterminate : nat -> nat -> T)
    (prog : list Client.statement) (vars : list matrix) (h : heap T)
    (s : Client.statement) :
  Forall small_rank prog ->
  Client.exec indeterminate prog [] ∅ = Ok vars h ->
  small_rank s ->
  (well_defined vars s ->
     exists vars' h', Client.step indeterminate s vars h = Ok vars' h') /\
  (forall r, s = Client.Construct r -> ~ (r = 0 \/ power_of_2 r) ->
     Client.step indeterminate s vars h = Abort) /\
  (forall a i j v m, s = Client.Assign a i j v ->
     vars !! a = Some m -> _data m = None ->
     0 <= i < Matrix.rank m -> 0 <= j < Matrix.rank m ->
     Client.step indeterminate s vars h = Undefined) /\
  (forall a, s = Client.Duplicate a ->
     forall vars' h', Client.step indeterminate s vars h <> Ok vars' h').
Proof.
  intros Hsmall Hexec Hs.
  pose proof (exec_invariant indeterminate prog [] ∅ vars h Hsmall
                invariant_initial Hexec) as Hinv.
  split_and!.
  - by apply step_well_defined.
  - intros r -> Hbad. simpl in Hs. cbn [Client.step]. unfold mbind, M_bind.
    apply (of_rank_aborts indeterminate r h) in Hbad; [|lia].
    by rewrite Hbad.
  - intros a i j v m -> Hm Hd _ _. cbn [Client.step]. unfold mbind, M_bind.
    by rewrite (lookup_var_Some vars a m), put_null.
  - intros a -> vars' h'. apply step_duplicate_not_ok.
Qed.

Lemma statement_runs_to_completion_witness :
  let prog : list (Client.statement (T := Z)) :=
    [Client.Construct 2; Client.MoveConstruct 0] in
  let vars :=
    [{| _rank := 2; _data := None |}; {| _rank := 2; _data := Some 0%nat |}] in
  let h : heap Z := {[ 0%nat := [0; 0; 0; 0] ]} in
  (Forall small_rank prog /\ Client.exec zeros prog [] ∅ = Ok vars h /\
   small_rank (Client.Assign (T := Z) 1 1 1 1) /\
   well_defined vars (Client.Assign 1 1 1 1)) /\
  Client.step zeros (Client.Assign 0 1 1 1) vars h = Undefined /\
  exists vars' h', Client.step zeros (Client.Assign 1 1 1 1) vars h
                   = Ok vars' h'.
Proof.
  intros prog vars h.
  assert (Hsmall : Forall small_rank prog).
  { repeat constructor; simpl; lia. }
  assert (Hexec : Client.exec zeros prog [] ∅ = Ok vars h).
  { vm_compute. reflexivity. }
  assert (Hwd : well_defined vars (Client.Assign 1 1 1 1)).
  { exists {| _rank := 2; _data := Some 0%nat |}.
    split_and!; [reflexivity|discriminate|simpl; lia..]. }
  split; [split_and!; done|].
  split.
  - destruct (statement_runs_to_completion zeros prog vars h
                (Client.Assign 0 1 1 1) Hsmall Hexec I) as (_ & _ & Hnull & _).
    apply (Hnull 0%nat 1 1 1 {| _rank := 2; _data := None |});
      [reflexivity..|simpl; lia|simpl; lia].
  - apply (statement_runs_to_completion zeros prog vars h
             (Client.Assign 1 1 1 1) Hsmall Hexec I). exact Hwd.
Defined.
